(** * shadPS4 command-line front end: argument parser and game location

    A shallow embedding of
      - [Common::ArgParser]            (src/common/arg_parser.{h,cpp})
      - [ResolveGamePath] and [main]   (src/main.cpp)
      - [Core::GameUtil]               (src/core/game_util.{h,cpp})
      - [Core::LoadPSFData] and [Core::LogGameArguments]
                                       (src/core/game_metadata.{h,cpp})
    together with the properties of the written specification that concern
    them.

    Conventions of the embedding.
      - [argv] is a [list string]; [argc] is its length.  Indices are [nat]:
        the loop index of [Parse] ranges over [1 .. argc], far from the
        bounds of a C [int].
      - Code that calls [exit] or touches process-wide state runs in the
        monad [M]: a state monad over [Machine] whose results are [Ok]
        (normal completion), [Exit] (the process terminated with the given
        code) or [Throw] (a [std::filesystem::filesystem_error] that
        nothing catches left the function).
      - [std::filesystem] and the other collaborators whose sources are not
        part of the translated files are interfaces ([StdFilesystem],
        [Collaborators], [PSF]); [std::stoi] is modelled after the C++
        standard.
      - Code that can let an exception of the standard library escape
        returns a [Cxx.Outcome]. *)

From Stdlib Require Import ZArith Ascii String Lia.
From stdpp Require Import base gmap strings list sorting.

Set Default Proof Using "Type".

(* ------------------------------------------------------------------ *)
(** ** Strings: the [std::string] operations the sources use          *)
(* ------------------------------------------------------------------ *)

Module Str.

(** The newline character written ["\n"] in the sources. *)
Definition nl : string := String (ascii_of_nat 10) EmptyString.

(** The double-quote character (written with a backslash escape in the
    sources). *)
Definition dq : string := String (ascii_of_nat 34) EmptyString.

(** [s[0]]: for an empty [std::string] the reference returned by
    [operator[]] at position [size()] designates the null character. *)
Definition first_char (s : string) : ascii :=
  match s with
  | EmptyString => Ascii.zero
  | String c _ => c
  end.

(** [s.ends_with(suffix)]. *)
Definition ends_with (s suffix : string) : bool :=
  let n := String.length s in
  let k := String.length suffix in
  (k <=? n) && String.eqb (String.substring (n - k) k s) suffix.

(** [s.rfind(c)]: index of the last occurrence of [c]; [None] stands for
    [std::string::npos]. *)
Fixpoint rfind (s : string) (c : ascii) : option nat :=
  match s with
  | EmptyString => None
  | String a s' =>
      match rfind s' c with
      | Some k => Some (S k)
      | None => if Ascii.eqb a c then Some 0 else None
      end
  end.


End Str.

(* ------------------------------------------------------------------ *)
(** ** [std::stoi]                                                    *)
(* ------------------------------------------------------------------ *)

Module Stoi.

(** Outcome of [std::stoi(str)]: the converted [int], or one of the two
    exceptions the standard prescribes. *)
Inductive result :=
| Value (n : Z)
| InvalidArgument
| OutOfRange.

Definition INT_MIN : Z := - 2 ^ 31.
Definition INT_MAX : Z := 2 ^ 31 - 1.

(** [isspace] in the "C" locale. *)
Definition isspace (c : ascii) : bool :=
  let n := nat_of_ascii c in
  (n =? 32) || ((9 <=? n) && (n <=? 13)).

Definition isdigit (c : ascii) : bool :=
  let n := nat_of_ascii c in
  (48 <=? n) && (n <=? 57).

Definition digit_value (c : ascii) : Z := Z.of_nat (nat_of_ascii c - 48).

Fixpoint skip_space (s : string) : string :=
  match s with
  | String c s' => if isspace c then skip_space s' else s
  | EmptyString => s
  end.

(** Value of the longest run of decimal digits at the head of [s],
    continuing the accumulator [acc]. *)
Fixpoint digit_run (acc : Z) (s : string) : Z :=
  match s with
  | String c s' =>
      if isdigit c then digit_run (10 * acc + digit_value c) s' else acc
  | EmptyString => acc
  end.

Definition starts_with_digit (s : string) : bool :=
  match s with
  | String c _ => isdigit c
  | EmptyString => false
  end.

(** [std::stoi(str)] with the default base 10 and no position output:
    [strtol] skips white space, reads an optional sign and the longest
    digit run; without a digit the conversion fails ([invalid_argument]);
    a value that does not fit an [int] is [out_of_range].  Characters
    after the digit run are not looked at. *)
Definition stoi (s : string) : result :=
  let s1 := skip_space s in
  let '(neg, s2) :=
    match s1 with
    | String c r =>
        if Ascii.eqb c "-" then (true, r)
        else if Ascii.eqb c "+" then (false, r)
        else (false, s1)
    | EmptyString => (false, s1)
    end in
  if starts_with_digit s2 then
    let v := digit_run 0 s2 in
    let v := if neg then (- v)%Z else v in
    if (INT_MIN <=? v)%Z && (v <=? INT_MAX)%Z then Value v else OutOfRange
  else InvalidArgument.

(** Follows the words of the specification ("a base-10 integer"): an
    optional sign followed by one or more decimal digits and nothing
    else. *)
Fixpoint all_digits (s : string) : bool :=
  match s with
  | EmptyString => true
  | String c s' => isdigit c && all_digits s'
  end.

Definition is_base10_integer (s : string) : bool :=
  match s with
  | EmptyString => false
  | String c r =>
      if Ascii.eqb c "-" || Ascii.eqb c "+"
      then starts_with_digit r && all_digits r
      else all_digits s
  end.

(** The number a base-10 integer in that sense denotes. *)
Definition decimal_value (s : string) : Z :=
  match s with
  | EmptyString => 0
  | String c r =>
      if Ascii.eqb c "-" then (- digit_run 0 r)%Z
      else if Ascii.eqb c "+" then digit_run 0 r
      else digit_run 0 s
  end.

Definition fits_int (v : Z) : bool := (INT_MIN <=? v)%Z && (v <=? INT_MAX)%Z.

End Stoi.

(* ------------------------------------------------------------------ *)
(** ** Collaborators outside the translated sources                   *)
(* ------------------------------------------------------------------ *)

(** The part of [std::filesystem] the sources use.  The queries read one
    snapshot of the file system: nothing in the modelled code creates or
    removes an entry between two queries of the same run.

    Every query asks for the status of the path first, and the operating
    system can refuse to answer for a reason other than the entry not
    being there (a component longer than the system allows, a directory on
    the way that may not be searched, ...): [status_fails].  The overloads
    that take a [std::error_code] then answer [false]; the overloads
    without one throw [std::filesystem::filesystem_error].  The fields
    [fs_exists], [is_directory] and [is_regular_file] are the answers of
    the former; [exists_throwing] and [is_directory_throwing] below are
    the latter. *)
Class StdFilesystem := {
  path : Type;
  (** [std::filesystem::path(const std::string&)] *)
  path_of_string : string → path;
  (** [p.parent_path()] *)
  parent_path : path → path;
  (** [p.filename().string()] *)
  filename : path → string;
  (** [p / name] *)
  path_append : path → string → path;
  (** the status query on [p] fails with an error other than "not
      found": [status(p, ec)] yields [file_type::none] *)
  status_fails : path → bool;
  (** [std::filesystem::exists(p, ec)] *)
  fs_exists : path → bool;
  (** [std::filesystem::is_directory(p, ec)] *)
  is_directory : path → bool;
  (** [std::filesystem::is_regular_file(p, ec)] *)
  is_regular_file : path → bool;
}.

(** [Config::ConfigMode] (common/config.h). *)
Inductive ConfigMode := ModeDefault | ModeGlobal | ModeClean.

Inductive Stream := Stdout | Stderr.

(** Ghost labels: which statement group of the loop body of
    [ArgParser::Parse] an iteration executed.  They are not program state;
    the trace they form only lets theorems speak about the course of the
    scan. *)
Inductive Branch :=
| BrGame              (* lines 155-157: -g/--game with a value          *)
| BrGameMissing       (* lines 158-161                                  *)
| BrPatch             (* lines 165-173                                  *)
| BrFullscreen        (* lines 175-193                                  *)
| BrAddGameFolder     (* lines 195-212                                  *)
| BrSetAddonFolder    (* lines 214-231                                  *)
| BrOverrideRoot      (* lines 233-247                                  *)
| BrWaitForPid        (* lines 249-261                                  *)
| BrRegistered        (* lines 264-268: callback from arg_map           *)
| BrSeparator         (* lines 271-280: the token --                    *)
| BrLegacy            (* lines 285-289: positional token before --      *)
| BrPositional        (* lines 290-294: trailing bare token             *)
| BrUnknown.          (* line 297                                       *)

(** [std::string::operator==]. *)
Infix "==" := String.eqb (at level 70, no associativity) : stdpp_scope.

Declare Scope M_scope.
Delimit Scope M_scope with M.

Section Model.

Context {FS : StdFilesystem}.

(** *** Data *)

(** [ArgParser::ParsedArgs] (arg_parser.h, lines 28-35). *)
Record ParsedArgs := {
  has_game_argument : bool;
  game_path : string;
  game_args : list string;
  game_folder : option path;
  wait_for_debugger : bool;
  wait_pid : option Z;
}.

(** [ParsedArgs{}]: the default member initialisers. *)
Definition ParsedArgs_default : ParsedArgs :=
  {| has_game_argument := false;
     game_path := EmptyString;
     game_args := [];
     game_folder := None;
     wait_for_debugger := false;
     wait_pid := None |}.

(** Process-wide state written by the parser through [Config::],
    [MemoryPatcher::], [Common::Log::] and [Core::FileSys::MntPoints]. *)
Record Globals := {
  ignore_game_patches : bool;
  patch_file : string;
  log_append : bool;
  config_mode : ConfigMode;
  show_fps_counter : bool;
  is_fullscreen : bool;
  game_install_dirs : list path;
  addon_install_dir : option path;
  config_saves : list path;
}.

(** A request handed to [Core::Emulator::Run]. *)
Record Launch := {
  launch_executable_name : string;
  launch_wait_for_debugger : bool;
  launch_eboot : path;
  launch_args : list string;
  launch_folder : option path;
}.

Record Machine := {
  (** the member [ArgParser::result] *)
  result : ParsedArgs;
  globals : Globals;
  (** what was written to [std::cout] and [std::cerr], oldest first *)
  out : list (Stream * string);
  (** calls of [FindGameByID], oldest first *)
  scans : list (path * string * nat);
  (** calls of [Core::Debugger::WaitForPid] and [Emulator::Run] *)
  waited : list Z;
  launched : list Launch;
  (** ghost: [(i, b)] for every loop iteration of [Parse] *)
  trace : list (nat * Branch);
}.

(** *** Collaborators *)

(** The functions and values of the repository and of its libraries that
    the translated files use and do not define. *)
Class Collaborators := {
  (** [Common::FS::FindGameByID(dir, game_id, max_depth)]
      (common/path_util.h) *)
  FindGameByID : path → string → nat → option path;
  (** [Common::FS::GetUserPath(Common::FS::PathType::UserDir)] *)
  user_dir : path;
  (** [e.what()] of the exceptions of [std::stoi] (implementation
      defined) *)
  stoi_what : Stoi.result → string;
  (** [Config::load(file)]: replaces the process-wide configuration by
      what the file holds *)
  Config_load : path → Globals → Globals;
  (** result of [SDL_ShowSimpleMessageBox] and text of [SDL_GetError] *)
  SDL_ShowSimpleMessageBox : bool;
  SDL_GetError : string;
}.

Context {Ext : Collaborators}.

(** *** Field updates *)

Definition upd_result (f : ParsedArgs → ParsedArgs) (m : Machine) : Machine :=
  {| result := f (result m); globals := globals m; out := out m;
     scans := scans m; waited := waited m; launched := launched m;
     trace := trace m |}.

Definition upd_globals (f : Globals → Globals) (m : Machine) : Machine :=
  {| result := result m; globals := f (globals m); out := out m;
     scans := scans m; waited := waited m; launched := launched m;
     trace := trace m |}.

Definition emit (s : Stream) (msg : string) (m : Machine) : Machine :=
  {| result := result m; globals := globals m;
     out := out m ++ [(s, msg)];
     scans := scans m; waited := waited m; launched := launched m;
     trace := trace m |}.

Definition log_scan (c : path * string * nat) (m : Machine) : Machine :=
  {| result := result m; globals := globals m; out := out m;
     scans := scans m ++ [c]; waited := waited m; launched := launched m;
     trace := trace m |}.

(** The state [m] after the calls [cs] of [FindGameByID]. *)
Definition log_scans (cs : list (path * string * nat)) (m : Machine) : Machine :=
  {| result := result m; globals := globals m; out := out m;
     scans := scans m ++ cs; waited := waited m; launched := launched m;
     trace := trace m |}.

Definition log_wait (pid : Z) (m : Machine) : Machine :=
  {| result := result m; globals := globals m; out := out m;
     scans := scans m; waited := waited m ++ [pid]; launched := launched m;
     trace := trace m |}.

Definition log_launch (l : Launch) (m : Machine) : Machine :=
  {| result := result m; globals := globals m; out := out m;
     scans := scans m; waited := waited m; launched := launched m ++ [l];
     trace := trace m |}.

Definition log_branch (i : nat) (b : Branch) (m : Machine) : Machine :=
  {| result := result m; globals := globals m; out := out m;
     scans := scans m; waited := waited m; launched := launched m;
     trace := trace m ++ [(i, b)] |}.

Definition clear_trace (m : Machine) : Machine :=
  {| result := result m; globals := globals m; out := out m;
     scans := scans m; waited := waited m; launched := launched m;
     trace := [] |}.

Definition set_has_game_argument (b : bool) (r : ParsedArgs) : ParsedArgs :=
  {| has_game_argument := b; game_path := game_path r;
     game_args := game_args r; game_folder := game_folder r;
     wait_for_debugger := wait_for_debugger r; wait_pid := wait_pid r |}.

Definition set_game_path (v : string) (r : ParsedArgs) : ParsedArgs :=
  {| has_game_argument := has_game_argument r; game_path := v;
     game_args := game_args r; game_folder := game_folder r;
     wait_for_debugger := wait_for_debugger r; wait_pid := wait_pid r |}.

(** [game_args.push_back(v)] *)
Definition push_game_arg (v : string) (r : ParsedArgs) : ParsedArgs :=
  {| has_game_argument := has_game_argument r; game_path := game_path r;
     game_args := game_args r ++ [v]; game_folder := game_folder r;
     wait_for_debugger := wait_for_debugger r; wait_pid := wait_pid r |}.

Definition set_game_folder (p : path) (r : ParsedArgs) : ParsedArgs :=
  {| has_game_argument := has_game_argument r; game_path := game_path r;
     game_args := game_args r; game_folder := Some p;
     wait_for_debugger := wait_for_debugger r; wait_pid := wait_pid r |}.

Definition set_wait_for_debugger (b : bool) (r : ParsedArgs) : ParsedArgs :=
  {| has_game_argument := has_game_argument r; game_path := game_path r;
     game_args := game_args r; game_folder := game_folder r;
     wait_for_debugger := b; wait_pid := wait_pid r |}.

Definition set_wait_pid (n : Z) (r : ParsedArgs) : ParsedArgs :=
  {| has_game_argument := has_game_argument r; game_path := game_path r;
     game_args := game_args r; game_folder := game_folder r;
     wait_for_debugger := wait_for_debugger r; wait_pid := Some n |}.

(** [Core::FileSys::MntPoints::ignore_game_patches = b] *)
Definition set_ignore_game_patches (b : bool) (g : Globals) : Globals :=
  {| ignore_game_patches := b; patch_file := patch_file g;
     log_append := log_append g; config_mode := config_mode g;
     show_fps_counter := show_fps_counter g; is_fullscreen := is_fullscreen g;
     game_install_dirs := game_install_dirs g;
     addon_install_dir := addon_install_dir g;
     config_saves := config_saves g |}.

(** [MemoryPatcher::patch_file = v] *)
Definition set_patch_file (v : string) (g : Globals) : Globals :=
  {| ignore_game_patches := ignore_game_patches g; patch_file := v;
     log_append := log_append g; config_mode := config_mode g;
     show_fps_counter := show_fps_counter g; is_fullscreen := is_fullscreen g;
     game_install_dirs := game_install_dirs g;
     addon_install_dir := addon_install_dir g;
     config_saves := config_saves g |}.

(** Modelled from the spec: [Common::Log::SetAppend()]
    (common/logging/backend) is not among the translated files; it
    "switches log sink to append mode". *)
Definition SetAppend (g : Globals) : Globals :=
  {| ignore_game_patches := ignore_game_patches g; patch_file := patch_file g;
     log_append := true; config_mode := config_mode g;
     show_fps_counter := show_fps_counter g; is_fullscreen := is_fullscreen g;
     game_install_dirs := game_install_dirs g;
     addon_install_dir := addon_install_dir g;
     config_saves := config_saves g |}.

(** Modelled from the spec: [Config::setConfigMode(mode)] (common/config)
    is not among the translated files; it selects the configuration load
    mode. *)
Definition setConfigMode (mode : ConfigMode) (g : Globals) : Globals :=
  {| ignore_game_patches := ignore_game_patches g; patch_file := patch_file g;
     log_append := log_append g; config_mode := mode;
     show_fps_counter := show_fps_counter g; is_fullscreen := is_fullscreen g;
     game_install_dirs := game_install_dirs g;
     addon_install_dir := addon_install_dir g;
     config_saves := config_saves g |}.

(** Modelled from the spec: [Config::setShowFpsCounter(b)] (common/config)
    is not among the translated files; it "enables on-screen FPS
    counter". *)
Definition setShowFpsCounter (b : bool) (g : Globals) : Globals :=
  {| ignore_game_patches := ignore_game_patches g; patch_file := patch_file g;
     log_append := log_append g; config_mode := config_mode g;
     show_fps_counter := b; is_fullscreen := is_fullscreen g;
     game_install_dirs := game_install_dirs g;
     addon_install_dir := addon_install_dir g;
     config_saves := config_saves g |}.

(** Modelled from the spec: [Config::setIsFullscreen(b)] (common/config)
    is not among the translated files; it "sets initial fullscreen
    state". *)
Definition setIsFullscreen (b : bool) (g : Globals) : Globals :=
  {| ignore_game_patches := ignore_game_patches g; patch_file := patch_file g;
     log_append := log_append g; config_mode := config_mode g;
     show_fps_counter := show_fps_counter g; is_fullscreen := b;
     game_install_dirs := game_install_dirs g;
     addon_install_dir := addon_install_dir g;
     config_saves := config_saves g |}.

(** Modelled from the spec: [Config::addGameInstallDir(dir)]
    (common/config) is not among the translated files; it adds [dir] to the
    install directories. *)
Definition addGameInstallDir (dir : path) (g : Globals) : Globals :=
  {| ignore_game_patches := ignore_game_patches g; patch_file := patch_file g;
     log_append := log_append g; config_mode := config_mode g;
     show_fps_counter := show_fps_counter g; is_fullscreen := is_fullscreen g;
     game_install_dirs := game_install_dirs g ++ [dir];
     addon_install_dir := addon_install_dir g;
     config_saves := config_saves g |}.

(** Modelled from the spec: [Config::setAddonInstallDir(dir)]
    (common/config) is not among the translated files; it sets the addon
    directory. *)
Definition setAddonInstallDir (dir : path) (g : Globals) : Globals :=
  {| ignore_game_patches := ignore_game_patches g; patch_file := patch_file g;
     log_append := log_append g; config_mode := config_mode g;
     show_fps_counter := show_fps_counter g; is_fullscreen := is_fullscreen g;
     game_install_dirs := game_install_dirs g;
     addon_install_dir := Some dir;
     config_saves := config_saves g |}.

(** Modelled from the spec: [Config::save(file)] (common/config) is not
    among the translated files; it persists the configuration, recorded
    here as the file written. *)
Definition Config_save (file : path) (g : Globals) : Globals :=
  {| ignore_game_patches := ignore_game_patches g; patch_file := patch_file g;
     log_append := log_append g; config_mode := config_mode g;
     show_fps_counter := show_fps_counter g; is_fullscreen := is_fullscreen g;
     game_install_dirs := game_install_dirs g;
     addon_install_dir := addon_install_dir g;
     config_saves := config_saves g ++ [file] |}.

(** *** The monad of process-terminating, state-changing code *)

(** How a computation ends: it completes with a value, it calls
    [exit(code)], or a [std::filesystem::filesystem_error] about the path
    [p] leaves it.  No translated function catches that exception (the
    only [try] block, lines 254-259 of arg_parser.cpp, encloses the call
    of [std::stoi] alone), so once thrown it leaves [main] as well and the
    process is ended by [std::terminate]. *)
Inductive Res (A : Type) :=
| Ok (a : A) (m : Machine)
| Exit (code : Z) (m : Machine)
| Throw (p : path) (m : Machine).
Global Arguments Ok {A} a m.
Global Arguments Exit {A} code m.
Global Arguments Throw {A} p m.

Definition M (A : Type) : Type := Machine → Res A.

Definition ret {A} (a : A) : M A := fun m => Ok a m.

Definition bind {A B} (c : M A) (k : A → M B) : M B :=
  fun m =>
    match c m with
    | Ok a m' => k a m'
    | Exit code m' => Exit code m'
    | Throw p m' => Throw p m'
    end.

(** [exit(code)]. *)
Definition exit {A} (code : Z) : M A := fun m => Exit code m.

(** [throw filesystem_error(..., p, ec)]. *)
Definition throw {A} (p : path) : M A := fun m => Throw p m.

Definition modify (f : Machine → Machine) : M unit := fun m => Ok tt (f m).

Definition gets {A} (f : Machine → A) : M A := fun m => Ok (f m) m.

Local Notation "x <- c ;; k" := (bind c (fun x => k))
  (at level 100, c at next level, k at level 200, right associativity)
  : M_scope.
Local Notation "c ;; k" := (bind c (fun _ => k))
  (at level 100, k at level 200, right associativity) : M_scope.
Local Open Scope M_scope.

(** The state in which a computation ended, whichever way. *)
Definition machine_of {A} (r : Res A) : Machine :=
  match r with
  | Ok _ m => m
  | Exit _ m => m
  | Throw _ m => m
  end.

(** [std::cout << msg] and [std::cerr << msg]. *)
Definition print (s : Stream) (msg : string) : M unit := modify (emit s msg).

(** [std::filesystem::exists(p)] and [std::filesystem::is_directory(p)],
    the overloads without [std::error_code]. *)
Definition exists_throwing (p : path) : M bool :=
  if status_fails p then throw p else ret (fs_exists p).

Definition is_directory_throwing (p : path) : M bool :=
  if status_fails p then throw p else ret (is_directory p).

Definition mark (i : nat) (b : Branch) : M unit := modify (log_branch i b).

(** *** [ArgParser] (src/common/arg_parser.cpp) *)

(** The text written by [ArgParser::PrintHelp] (lines 20-43). *)
Definition usage_text : string :=
  "Usage: shadps4 [options] <elf or eboot.bin path>" +:+ Str.nl +:+
  "Options:" +:+ Str.nl +:+
  "  -g, --game <path|ID>          Specify game path to launch" +:+ Str.nl +:+
  "  -- ...                         Parameters passed to the game ELF. " +:+
  "Needs to be at the end of the line, and everything after " +:+
  Str.dq +:+ "--" +:+ Str.dq +:+ " is a " +:+
  "game argument." +:+ Str.nl +:+
  "  -p, --patch <patch_file>      Apply specified patch file" +:+ Str.nl +:+
  "  -i, --ignore-game-patch       Disable automatic loading of game patch" +:+ Str.nl +:+
  "  -f, --fullscreen <true|false> Specify window initial fullscreen " +:+
  "state. Does not overwrite the config file." +:+ Str.nl +:+
  "  --add-game-folder <folder>    Adds a new game folder to the config." +:+ Str.nl +:+
  "  --set-addon-folder <folder>   Sets the addon folder to the config." +:+ Str.nl +:+
  "  --log-append                  Append log output to file instead of " +:+
  "overwriting it." +:+ Str.nl +:+
  "  --override-root <folder>      Override the game root folder. Default is the " +:+
  "parent of game path" +:+ Str.nl +:+
  "  --wait-for-debugger           Wait for debugger to attach" +:+ Str.nl +:+
  "  --wait-for-pid <pid>          Wait for process with specified PID to stop" +:+ Str.nl +:+
  "  --config-clean                Run the emulator with the default config " +:+
  "values, ignores the config file(s) entirely." +:+ Str.nl +:+
  "  --config-global               Run the emulator with the base config file " +:+
  "only, ignores game specific configs." +:+ Str.nl +:+
  "  --show-fps                    Enable FPS counter display at startup" +:+ Str.nl +:+
  "  -h, --help                    Display this help message" +:+ Str.nl.

Definition PrintHelp : M unit := print Stdout usage_text.

(** [ArgParser::ValidatePath] (lines 46-60). *)
Definition ValidatePath (p : string) (is_file : bool) : option string :=
  let fs_path := path_of_string p in
  if is_file then
    if is_regular_file fs_path then Some p else None
  else
    if is_directory fs_path then Some p else None.

(** [ArgCallback = std::function<void(int&)>]: the callback receives the
    loop index by reference; the model returns its value on return. *)
Definition ArgCallback : Type := nat → M nat.

(** Lines 64-67. *)
Definition help_callback : ArgCallback :=
  fun _ => PrintHelp ;; exit 0.

(** The callbacks whose body is the comment "Will be handled in Parse()"
    ([game_callback], [patch_callback], and those of -f,
    --add-game-folder, --set-addon-folder, --override-root,
    --wait-for-pid). *)
Definition handled_in_Parse : ArgCallback := fun i => ret i.

Definition ignore_game_patch_callback : ArgCallback :=
  fun i => modify (upd_globals (set_ignore_game_patches true)) ;; ret i.

Definition log_append_callback : ArgCallback :=
  fun i => modify (upd_globals SetAppend) ;; ret i.

Definition config_clean_callback : ArgCallback :=
  fun i => modify (upd_globals (setConfigMode ModeClean)) ;; ret i.

Definition config_global_callback : ArgCallback :=
  fun i => modify (upd_globals (setConfigMode ModeGlobal)) ;; ret i.

Definition wait_for_debugger_callback : ArgCallback :=
  fun i => modify (upd_result (set_wait_for_debugger true)) ;; ret i.

Definition show_fps_callback : ArgCallback :=
  fun i => modify (upd_globals (setShowFpsCounter true)) ;; ret i.

(** A default-constructed [std::function], which [arg_map[key]] would
    insert for an absent key.  [RegisterArguments] reads [arg_map["-i"]]
    and [arg_map["-f"]] right after writing them, so it never arises. *)
Global Instance ArgCallback_inhabited : Inhabited ArgCallback :=
  populate handled_in_Parse.

(** [ArgParser::RegisterArguments] (lines 62-140): the assignments to
    [arg_map], in source order. *)
Definition RegisterArguments (arg_map : gmap string ArgCallback)
  : gmap string ArgCallback :=
  let arg_map := <["-h" := help_callback]> arg_map in
  let arg_map := <["--help" := help_callback]> arg_map in
  let arg_map := <["-g" := handled_in_Parse]> arg_map in
  let arg_map := <["--game" := handled_in_Parse]> arg_map in
  let arg_map := <["-p" := handled_in_Parse]> arg_map in
  let arg_map := <["--patch" := handled_in_Parse]> arg_map in
  let arg_map := <["-i" := ignore_game_patch_callback]> arg_map in
  let arg_map := <["--ignore-game-patch" := arg_map !!! "-i"]> arg_map in
  let arg_map := <["-f" := handled_in_Parse]> arg_map in
  let arg_map := <["--fullscreen" := arg_map !!! "-f"]> arg_map in
  let arg_map := <["--add-game-folder" := handled_in_Parse]> arg_map in
  let arg_map := <["--set-addon-folder" := handled_in_Parse]> arg_map in
  let arg_map := <["--log-append" := log_append_callback]> arg_map in
  let arg_map := <["--config-clean" := config_clean_callback]> arg_map in
  let arg_map := <["--config-global" := config_global_callback]> arg_map in
  let arg_map := <["--override-root" := handled_in_Parse]> arg_map in
  let arg_map := <["--wait-for-debugger" := wait_for_debugger_callback]> arg_map in
  let arg_map := <["--wait-for-pid" := handled_in_Parse]> arg_map in
  let arg_map := <["--show-fps" := show_fps_callback]> arg_map in
  arg_map.

(** The member [arg_map] after the constructor (lines 15-17). *)
Definition arg_map : gmap string ArgCallback := RegisterArguments ∅.

(** [argv[i]] converted to [std::string].  Every read of the sources is
    guarded by [i < argc]; outside that range the model yields the empty
    string. *)
Definition argv_at (argv : list string) (i : nat) : string :=
  nth i argv EmptyString.

(** How an iteration of the [for] loop of [Parse] ends. *)
Inductive LoopCtl :=
| Continue (i : nat)   (* [continue], or the end of the body, with this [i] *)
| Break.               (* [break] *)

(** The guard of the branch at lines 285-289, as written there. *)
Definition next_is_separator (argc : nat) (argv : list string) (i : nat) : bool :=
  (i + 1 <? argc) && (argv_at argv (i + 1) == "--").

(** The guard of the block at lines 283-295. *)
Definition last_without_game (argc i : nat) (m : Machine) : bool :=
  (i =? argc - 1) && negb (has_game_argument (result m)).

(** Lines 271-280: the token [--]. *)
Fixpoint push_game_args (argv : list string) (j : nat) (n : nat) : M unit :=
  match n with
  | 0 => ret tt
  | S n' =>
      modify (upd_result (push_game_arg (argv_at argv j))) ;;
      push_game_args argv (j + 1) n'
  end.

(** Lines 283-297, reached when no earlier branch took the token. *)
Definition Parse_positional (argc : nat) (argv : list string) (i : nat)
  : M LoopCtl :=
  let cur_arg := argv_at argv i in
  let unknown : M LoopCtl :=
    mark i BrUnknown ;;
    print Stderr ("Unknown argument: " +:+ cur_arg +:+
                  ", see --help for info." +:+ Str.nl) ;;
    ret (Continue i) in
  last <- gets (last_without_game argc i) ;;
  if last then
    if next_is_separator argc argv i then
      mark i BrLegacy ;;
      modify (upd_result (set_game_path (argv_at argv i))) ;;
      modify (upd_result (set_has_game_argument true)) ;;
      ret (Continue i)
    else if negb (Ascii.eqb (Str.first_char cur_arg) "-") then
      mark i BrPositional ;;
      modify (upd_result (set_game_path (argv_at argv i))) ;;
      modify (upd_result (set_has_game_argument true)) ;;
      ret (Continue i)
    else unknown
  else unknown.

(** Lines 270-297: what follows the lookup in [arg_map]. *)
Definition Parse_tail (argc : nat) (argv : list string) (i : nat) : M LoopCtl :=
  let cur_arg := argv_at argv i in
  if cur_arg == "--" then
    mark i BrSeparator ;;
    if i + 1 =? argc then
      print Stderr ("Warning: -- is set, but no game arguments are added!" +:+ Str.nl) ;;
      ret Break
    else
      push_game_args argv (i + 1) (argc - (i + 1)) ;;
      ret Break
  else Parse_positional argc argv i.

(** The body of the [for] loop of [ArgParser::Parse] (lines 151-297). *)
Definition Parse_body (argc : nat) (argv : list string) (i : nat)
  : M LoopCtl :=
  let cur_arg := argv_at argv i in
  if (cur_arg == "-g") || (cur_arg == "--game") then
    if i + 1 <? argc then
      mark i BrGame ;;
      modify (upd_result (set_game_path (argv_at argv (i + 1)))) ;;
      modify (upd_result (set_has_game_argument true)) ;;
      ret (Continue (i + 1))
    else
      mark i BrGameMissing ;;
      print Stderr ("Error: Missing argument for " +:+ cur_arg +:+ Str.nl) ;;
      exit 1
  else if (cur_arg == "-p") || (cur_arg == "--patch") then
    mark i BrPatch ;;
    if i + 1 <? argc then
      modify (upd_globals (set_patch_file (argv_at argv (i + 1)))) ;;
      ret (Continue (i + 1))
    else
      print Stderr ("Error: Missing argument for " +:+ cur_arg +:+ Str.nl) ;;
      exit 1
  else if (cur_arg == "-f") || (cur_arg == "--fullscreen") then
    mark i BrFullscreen ;;
    let i := i + 1 in
    if argc <=? i then
      print Stderr ("Error: Missing argument for " +:+ cur_arg +:+ Str.nl) ;;
      exit 1
    else
      let f_param := argv_at argv i in
      is_fullscreen <-
        (if f_param == "true" then ret true
         else if f_param == "false" then ret false
         else
           print Stderr ("Error: Invalid argument for " +:+ cur_arg +:+
                         ". Use 'true' or 'false'." +:+ Str.nl) ;;
           exit 1) ;;
      modify (upd_globals (setIsFullscreen is_fullscreen)) ;;
      ret (Continue i)
  else if cur_arg == "--add-game-folder" then
    mark i BrAddGameFolder ;;
    let i := i + 1 in
    if argc <=? i then
      print Stderr ("Error: Missing argument for --add-game-folder" +:+ Str.nl) ;;
      exit 1
    else
      let config_dir := argv_at argv i in
      match ValidatePath config_dir false with
      | Some validated =>
          let config_path := path_of_string validated in
          modify (upd_globals (addGameInstallDir config_path)) ;;
          modify (upd_globals (Config_save (path_append user_dir "config.toml"))) ;;
          print Stdout ("Game folder successfully saved." +:+ Str.nl) ;;
          exit 0
      | None =>
          print Stderr ("Error: File does not exist: " +:+ config_dir +:+ Str.nl) ;;
          exit 1
      end
  else if cur_arg == "--set-addon-folder" then
    mark i BrSetAddonFolder ;;
    let i := i + 1 in
    if argc <=? i then
      print Stderr ("Error: Missing argument for --set-addon-folder" +:+ Str.nl) ;;
      exit 1
    else
      let config_dir := argv_at argv i in
      match ValidatePath config_dir false with
      | Some validated =>
          let config_path := path_of_string validated in
          modify (upd_globals (setAddonInstallDir config_path)) ;;
          modify (upd_globals (Config_save (path_append user_dir "config.toml"))) ;;
          print Stdout ("Addon folder successfully saved." +:+ Str.nl) ;;
          exit 0
      | None =>
          print Stderr ("Error: File does not exist: " +:+ config_dir +:+ Str.nl) ;;
          exit 1
      end
  else if cur_arg == "--override-root" then
    mark i BrOverrideRoot ;;
    let i := i + 1 in
    if argc <=? i then
      print Stderr ("Error: Missing argument for --override-root" +:+ Str.nl) ;;
      exit 1
    else
      let folder_str := argv_at argv i in
      let folder := path_of_string folder_str in
      is_folder <-
        (found <- exists_throwing folder ;;
         if found then is_directory_throwing folder else ret false) ;;
      if is_folder then
        modify (upd_result (set_game_folder folder)) ;;
        ret (Continue i)
      else
        print Stderr ("Error: Folder does not exist: " +:+ folder_str +:+ Str.nl) ;;
        exit 1
  else if cur_arg == "--wait-for-pid" then
    mark i BrWaitForPid ;;
    let i := i + 1 in
    if argc <=? i then
      print Stderr ("Error: Missing argument for --wait-for-pid" +:+ Str.nl) ;;
      exit 1
    else
      match Stoi.stoi (argv_at argv i) with
      | Stoi.Value n =>
          modify (upd_result (set_wait_pid n)) ;;
          ret (Continue i)
      | e =>
          print Stderr ("Error: Invalid PID argument: " +:+ stoi_what e +:+ Str.nl) ;;
          exit 1
      end
  else
    match arg_map !! cur_arg with
    | Some callback =>
        if negb (cur_arg == "-h") && negb (cur_arg == "--help") then
          mark i BrRegistered ;;
          i <- callback i ;;
          ret (Continue i)
        else Parse_tail argc argv i
    | None => Parse_tail argc argv i
    end.

(** The [for] loop of lines 150-298, started at index [i].  [fuel]
    bounds the number of iterations; [None] means it ran out (it does not
    for [fuel > argc - i], see [Parse_loop_fuel]). *)
Fixpoint Parse_loop (fuel argc : nat) (argv : list string) (i : nat)
    (m : Machine) : option (Res unit) :=
  match fuel with
  | 0 => None
  | S fuel' =>
      if i <? argc then
        match Parse_body argc argv i m with
        | Ok (Continue i') m' => Parse_loop fuel' argc argv (i' + 1) m'
        | Ok Break m' => Some (Ok tt m')
        | Exit code m' => Some (Exit code m')
        | Throw p m' => Some (Throw p m')
        end
      else Some (Ok tt m)
  end.

(** [ArgParser::Parse] (lines 142-301); [argc] is the length of [argv].
    The ghost trace starts empty with the call. *)
Definition Parse (argv : list string) (m : Machine)
  : option (Res ParsedArgs) :=
  let argc := length argv in
  let m := clear_trace (upd_result (fun _ => ParsedArgs_default) m) in
  if argc =? 1 then
    Some ((PrintHelp ;; exit 1) m)
  else
    match Parse_loop (S argc) argc argv 1 m with
    | Some (Ok _ m') => Some (Ok (result m') m')
    | Some (Exit code m') => Some (Exit code m')
    | Some (Throw p m') => Some (Throw p m')
    | None => None
    end.

(** *** [Core::GameUtil] (src/core/game_util.cpp) *)


(** [FindFileIfExists] (lines 49-55). *)
Definition FindFileIfExists (p : path) : option path :=
  if fs_exists p then Some p else None.

(** [ParseFullscreenParam] (lines 57-64). *)
Definition ParseFullscreenParam (param : string) : option bool :=
  if param == "true" then Some true
  else if param == "false" then Some false
  else None.

(** *** src/main.cpp *)

(** [max_depth] of [ResolveGamePath] (line 54). *)
Definition max_depth : nat := 5.

(** The loop of lines 55-59: [Some found] when it returns from inside. *)
Fixpoint ResolveGamePath_search (install_dirs : list path)
    (game_path : string) : M (option path) :=
  match install_dirs with
  | [] => ret None
  | install_dir :: rest =>
      modify (log_scan (install_dir, game_path, max_depth)) ;;
      match FindGameByID install_dir game_path max_depth with
      | Some found_path => ret (Some found_path)
      | None => ResolveGamePath_search rest game_path
      end
  end.

(** [ResolveGamePath] (lines 45-63). *)
Definition ResolveGamePath (game_path : string) : M path :=
  let eboot_path := path_of_string game_path in
  found <- exists_throwing eboot_path ;;
  if found then ret eboot_path
  else
    install_dirs <- gets (fun m => game_install_dirs (globals m)) ;;
    found <- ResolveGamePath_search install_dirs game_path ;;
    match found with
    | Some found_path => ret found_path
    | None => ret eboot_path
    end.

(** [ShowNoArgumentDialog] (lines 29-37). *)
Definition ShowNoArgumentDialog : M unit :=
  if negb SDL_ShowSimpleMessageBox then
    print Stderr ("Could not display SDL message box! Error: " +:+
                  SDL_GetError +:+ Str.nl)
  else ret tt.

(** [InitializeSystem] (lines 68-83): of its effects, loading the
    configuration is the one the rest of [main] reads. *)
Definition InitializeSystem : M unit :=
  modify (upd_globals (Config_load (path_append user_dir "config.toml"))).

(** Lines 100-130 of [main]: from the test of [has_game_argument] on.
    The value is what [main] returns. *)
Definition main_launch (argv : list string) (args : ParsedArgs) : M Z :=
  if negb (has_game_argument args) then
    print Stderr ("Error: Please provide a game path or ID." +:+ Str.nl) ;;
    ret 1%Z
  else
    install_dirs <- gets (fun m => game_install_dirs (globals m)) ;;
    (match install_dirs with
     | [] =>
         print Stderr ("Warning: No game folder set. Please set it using:" +:+
                       Str.nl +:+
                       "  shadps4 --add-game-folder <folder_name>" +:+ Str.nl)
     | _ :: _ => ret tt
     end) ;;
    eboot_path <- ResolveGamePath (game_path args) ;;
    found <- exists_throwing eboot_path ;;
    if negb found then
      print Stderr ("Error: Game ID or file path not found: " +:+
                    game_path args +:+ Str.nl) ;;
      ret 1%Z
    else
      (match wait_pid args with
       | Some pid => modify (log_wait pid)
       | None => ret tt
       end) ;;
      modify (log_launch
                {| launch_executable_name := argv_at argv 0;
                   launch_wait_for_debugger := wait_for_debugger args;
                   launch_eboot := eboot_path;
                   launch_args := game_args args;
                   launch_folder := game_folder args |}) ;;
      ret 0%Z.

(** [main] (lines 85-131).  [Ok code] is a return from [main], [Exit code]
    a call of [exit]; either way the process ends with [code].  [Throw p]
    is the exception leaving [main]: the process is ended by
    [std::terminate], with no exit code of its own. *)
Definition main (argv : list string) (m : Machine) : option (Res Z) :=
  match InitializeSystem m with
  | Exit code m' => Some (Exit code m')
  | Throw p m' => Some (Throw p m')
  | Ok _ m0 =>
      if length argv =? 1 then
        match ShowNoArgumentDialog m0 with
        | Exit code m' => Some (Exit code m')
        | Throw p m' => Some (Throw p m')
        | Ok _ m1 =>
            match Parse argv m1 with
            | Some (Ok _ m2) => Some (Ok (-1)%Z m2)
            | Some (Exit code m2) => Some (Exit code m2)
            | Some (Throw p m2) => Some (Throw p m2)
            | None => None
            end
        end
      else
        match Parse argv m0 with
        | Some (Ok args m1) => Some (main_launch argv args m1)
        | Some (Exit code m1) => Some (Exit code m1)
        | Some (Throw p m1) => Some (Throw p m1)
        | None => None
        end
  end.

(** *** Vocabulary of the statements *)

(** The loop-body branches that assign [result.game_path]. *)
Definition assigns_game_path (b : Branch) : bool :=
  match b with
  | BrGame | BrLegacy | BrPositional => true
  | _ => false
  end.

(** A game path was assigned during the scan recorded in [m]. *)
Definition game_path_assigned (m : Machine) : Prop :=
  ∃ k b, (k, b) ∈ trace m ∧ assigns_game_path b = true.

(** The scan recorded in [m] reached the token [--] at position [k]: an
    iteration ran with loop index [k], and the token there is [--]. *)
Definition separator_reached (argv : list string) (m : Machine) (k : nat)
  : Prop :=
  (∃ b, (k, b) ∈ trace m) ∧ argv_at argv k = "--".

(** The fields of [ParsedArgs] that hold the game and its arguments are
    the same in [m] and [m']. *)
Definition same_game (m m' : Machine) : Prop :=
  has_game_argument (result m') = has_game_argument (result m)
  ∧ game_path (result m') = game_path (result m)
  ∧ game_args (result m') = game_args (result m).

(** What an iteration at index [i] that took branch [b] and completed with
    [ctl] did to the state. *)
Definition step_post (argc : nat) (argv : list string) (i : nat)
    (m : Machine) (b : Branch) (ctl : LoopCtl) (m' : Machine) : Prop :=
  match b with
  | BrGame =>
      ctl = Continue (i + 1) ∧ i + 1 < argc
      ∧ has_game_argument (result m') = true
      ∧ game_path (result m') = argv_at argv (i + 1)
      ∧ game_args (result m') = game_args (result m)
  | BrPositional =>
      ctl = Continue i ∧ i = argc - 1
      ∧ has_game_argument (result m) = false
      ∧ Str.first_char (argv_at argv i) ≠ "-"%char
      ∧ has_game_argument (result m') = true
      ∧ game_path (result m') = argv_at argv i
      ∧ game_args (result m') = game_args (result m)
  | BrSeparator =>
      ctl = Break ∧ argv_at argv i = "--"
      ∧ has_game_argument (result m') = has_game_argument (result m)
      ∧ game_path (result m') = game_path (result m)
      ∧ game_args (result m') = game_args (result m) ++ drop (i + 1) argv
  | BrLegacy | BrGameMissing => False
  | _ =>
      (∃ i', ctl = Continue i' ∧ i ≤ i' ∧ i' < argc) ∧ same_game m m'
  end.

(** Summary of one iteration of the loop of [Parse]. *)
Definition body_post (argc : nat) (argv : list string) (i : nat)
    (m : Machine) (r : Res LoopCtl) : Prop :=
  match r with
  | Ok ctl m' =>
      ∃ b, trace m' = trace m ++ [(i, b)]
           ∧ (b = BrSeparator ∨ argv_at argv i ≠ "--")
           ∧ step_post argc argv i m b ctl m'
  | Exit _ m' | Throw _ m' =>
      ∃ b, trace m' = trace m ++ [(i, b)]
           ∧ assigns_game_path b = false ∧ b ≠ BrSeparator
           ∧ argv_at argv i ≠ "--"
           ∧ same_game m m'
  end.

(** The state of the scan while the loop of [Parse] is running. *)
Record scanning (argv : list string) (m : Machine) : Prop := {
  scanning_args : game_args (result m) = [];
  scanning_trace :
    ∀ k b, (k, b) ∈ trace m →
      k < length argv ∧ argv_at argv k ≠ "--" ∧ b ≠ BrSeparator ∧ b ≠ BrLegacy
      ∧ (b = BrPositional →
           k = length argv - 1 ∧ Str.first_char (argv_at argv k) ≠ "-"%char);
  scanning_assigned :
    has_game_argument (result m) = true ↔ game_path_assigned m;
  scanning_unset :
    has_game_argument (result m) = false → game_path (result m) = EmptyString;
  scanning_token :
    has_game_argument (result m) = true →
      ∃ j, 1 ≤ j < length argv ∧ game_path (result m) = argv_at argv j;
}.

(** The state in which the loop of [Parse] ends normally: the tokens ran
    out, or the iteration at the token [--] broke out of the loop. *)
Inductive scan_end (argv : list string) (m : Machine) : Prop :=
| end_of_tokens :
    scanning argv m → scan_end argv m
| end_at_separator (k : nat) (m0 : Machine) :
    scanning argv m0 →
    k < length argv →
    argv_at argv k = "--" →
    trace m = trace m0 ++ [(k, BrSeparator)] →
    game_args (result m) = drop (k + 1) argv →
    has_game_argument (result m) = has_game_argument (result m0) →
    game_path (result m) = game_path (result m0) →
    scan_end argv m.

End Model.

Arguments ParsedArgs {FS}.
Arguments Globals {FS}.
Arguments Launch {FS}.
Arguments Machine {FS}.
Arguments Res {FS} A.
Arguments M {FS} A.
Arguments Collaborators {FS}.

(* ------------------------------------------------------------------ *)
(** ** A concrete file system to run the model on                     *)
(* ------------------------------------------------------------------ *)

Module Demo.

(** Paths are strings of components separated by [/], without trailing
    or repeated separators (the root is [/]). *)
Definition demo_parent (p : string) : string :=
  match Str.rfind p "/" with
  | None => EmptyString
  | Some 0 => "/"
  | Some k => String.substring 0 k p
  end.

Definition demo_filename (p : string) : string :=
  match Str.rfind p "/" with
  | None => p
  | Some k => String.substring (k + 1) (String.length p - (k + 1)) p
  end.

Definition demo_append (p name : string) : string :=
  if p == EmptyString then name
  else if Str.ends_with p "/" then p +:+ name
  else p +:+ "/" +:+ name.

Definition directories : list string :=
  [ "/"; "/games"; "/games/MyGame"; "/games/MyGame-UPDATE";
    "/games/Solo-patch"; "/games/CUSA00001"; "/more" ].

Definition files : list string :=
  [ "/games/MyGame/eboot.bin"; "/games/MyGame-UPDATE/eboot.bin";
    "/games/Solo-patch/eboot.bin"; "/games/CUSA00001/eboot.bin" ].

Definition mem (p : string) (l : list string) : bool :=
  existsb (String.eqb p) l.

(** The status query fails for a last component of more than 255
    characters ([ENAMETOOLONG]); no listed entry has one. *)
Definition name_too_long (p : string) : bool :=
  255 <? String.length (demo_filename p).

(** [n] times the letter A. *)
Fixpoint letters (n : nat) : string :=
  match n with
  | 0 => EmptyString
  | S n' => String "A" (letters n')
  end.

Definition fs : StdFilesystem := {|
  path := string;
  path_of_string := fun s => s;
  parent_path := demo_parent;
  filename := demo_filename;
  path_append := demo_append;
  status_fails := name_too_long;
  fs_exists := fun p => mem p directories || mem p files;
  is_directory := fun p => mem p directories;
  is_regular_file := fun p => mem p files;
|}.
#[local] Existing Instance fs.

(** The game [CUSA00001] is found below [/games] only. *)
Definition find (dir : path) (id : string) (depth : nat) : option path :=
  if (dir == "/games") && (id == "CUSA00001") && (1 <=? depth)
  then Some "/games/CUSA00001/eboot.bin"
  else None.

Definition what (e : Stoi.result) : string := "stoi".

Definition load (file : path) (g : Globals) : Globals := g.

Definition globals0 : Globals :=
  {| ignore_game_patches := false; patch_file := EmptyString;
     log_append := false; config_mode := ModeDefault;
     show_fps_counter := false; is_fullscreen := false;
     game_install_dirs := ["/more"; "/games"; "/"];
     addon_install_dir := None; config_saves := [] |}.

Definition machine0 : Machine :=
  {| result := ParsedArgs_default; globals := globals0; out := [];
     scans := []; waited := []; launched := []; trace := [] |}.

Definition host : Collaborators := {|
  FindGameByID := find;
  user_dir := "/home/user";
  stoi_what := what;
  Config_load := load;
  SDL_ShowSimpleMessageBox := true;
  SDL_GetError := EmptyString;
|}.
#[local] Existing Instance host.

Definition run_Parse (argv : list string) : option (Res ParsedArgs) :=
  Parse argv machine0.

Definition run_main (argv : list string) : option (Res Z) :=
  main argv machine0.

End Demo.

(* ------------------------------------------------------------------ *)
(** ** Vocabulary for the effects of the parser                       *)
(* ------------------------------------------------------------------ *)

Section Effects.

Context {FS : StdFilesystem} {Ext : Collaborators}.

(** The spellings whose callback in [arg_map] does the work of the flag
    (lines 87-90, 109-119, 127-129, 137-139). *)
Definition effect_only_flags : list string :=
  [ "-i"; "--ignore-game-patch"; "--log-append"; "--config-clean";
    "--config-global"; "--wait-for-debugger"; "--show-fps" ].

(** The spellings [Parse] handles itself before it looks into [arg_map]
    (lines 154-261). *)
Definition value_flags : list string :=
  [ "-g"; "--game"; "-p"; "--patch"; "-f"; "--fullscreen";
    "--add-game-folder"; "--set-addon-folder"; "--override-root";
    "--wait-for-pid" ].

(** The persisted configuration and the call logs are the same in [m]
    and [m']. *)
Definition same_world (m m' : Machine) : Prop :=
  game_install_dirs (globals m') = game_install_dirs (globals m)
  ∧ addon_install_dir (globals m') = addon_install_dir (globals m)
  ∧ config_saves (globals m') = config_saves (globals m)
  ∧ scans m' = scans m ∧ waited m' = waited m ∧ launched m' = launched m.

(** From [m] to [m'] output went to the error stream only. *)
Definition wrote_stderr (m m' : Machine) : Prop :=
  ∃ l, out m' = out m ++ l ∧ Forall (λ e, e.1 = Stderr) l.

(** A folder held by [r] is the value of an [--override-root] of [argv]
    and names an existing directory. *)
Definition folder_from (argv : list string) (r : ParsedArgs) : Prop :=
  ∀ p, game_folder r = Some p →
    ∃ j, 2 ≤ j < length argv
         ∧ argv_at argv (j - 1) = "--override-root"
         ∧ p = path_of_string (argv_at argv j)
         ∧ fs_exists p = true ∧ is_directory p = true.

(** A process ID held by [r] is what [std::stoi] made of the value of a
    [--wait-for-pid] of [argv]. *)
Definition pid_from (argv : list string) (r : ParsedArgs) : Prop :=
  ∀ n, wait_pid r = Some n →
    ∃ j, 2 ≤ j < length argv
         ∧ argv_at argv (j - 1) = "--wait-for-pid"
         ∧ Stoi.stoi (argv_at argv j) = Stoi.Value n.

(** [wait_for_debugger] of [r] is set only if [--wait-for-debugger] is a
    token of [argv]. *)
Definition debugger_from (argv : list string) (r : ParsedArgs) : Prop :=
  wait_for_debugger r = true →
    ∃ j, 1 ≤ j < length argv ∧ argv_at argv j = "--wait-for-debugger".

(** What the scan has kept true of the state [m] it started in [m0]. *)
Record effects_so_far (argv : list string) (m0 m : Machine) : Prop := {
  so_far_world : same_world m0 m;
  so_far_out : wrote_stderr m0 m;
  so_far_folder : folder_from argv (result m);
  so_far_pid : pid_from argv (result m);
  so_far_debugger : debugger_from argv (result m);
}.

(** A successful [--add-game-folder] or [--set-addon-folder] at index [i]:
    the directory is stored, the configuration saved and the confirmation
    printed. *)
Definition folder_command (argv : list string) (i : nat) (m m' : Machine)
  : Prop :=
  let dir := path_of_string (argv_at argv (i + 1)) in
  i + 1 < length argv
  ∧ is_directory dir = true
  ∧ config_saves (globals m') =
    config_saves (globals m) ++ [path_append user_dir "config.toml"]
  ∧ ((argv_at argv i = "--add-game-folder"
      ∧ game_install_dirs (globals m') = game_install_dirs (globals m) ++ [dir]
      ∧ addon_install_dir (globals m') = addon_install_dir (globals m)
      ∧ out m' = out m ++ [(Stdout, "Game folder successfully saved." +:+ Str.nl)])
     ∨ (argv_at argv i = "--set-addon-folder"
        ∧ addon_install_dir (globals m') = Some dir
        ∧ game_install_dirs (globals m') = game_install_dirs (globals m)
        ∧ out m' = out m ++ [(Stdout, "Addon folder successfully saved." +:+ Str.nl)])).

(** The one way an exception leaves the loop body of [Parse]: the
    iteration at index [i] is at [--override-root], and the status of its
    value, the path [p], cannot be queried (line 240). *)
Definition override_root_throws (argv : list string) (i : nat) (p : path)
  : Prop :=
  i + 1 < length argv
  ∧ argv_at argv i = "--override-root"
  ∧ p = path_of_string (argv_at argv (i + 1))
  ∧ status_fails p = true.

(** Where a path whose status [main] asks for comes from: it is the game
    path of the command line, or what [FindGameByID] found for it in an
    install directory. *)
Definition resolved_from (args : ParsedArgs) (m : Machine) (p : path) : Prop :=
  p = path_of_string (game_path args)
  ∨ ∃ d, d ∈ game_install_dirs (globals m)
         ∧ FindGameByID d (game_path args) max_depth = Some p.

(** Summary of one iteration of the loop of [Parse], as to its effects
    outside the game fields. *)
Definition body_effects (argv : list string) (i : nat) (m : Machine)
    (r : Res LoopCtl) : Prop :=
  match r with
  | Ok _ m' =>
      same_world m m' ∧ wrote_stderr m m'
      ∧ (folder_from argv (result m) → folder_from argv (result m'))
      ∧ (pid_from argv (result m) → pid_from argv (result m'))
      ∧ (debugger_from argv (result m) → debugger_from argv (result m'))
      ∧ (∀ b, trace m' = trace m ++ [(i, b)] → b = BrRegistered →
           In (argv_at argv i) effect_only_flags)
  | Exit code m' =>
      result m' = result m
      ∧ scans m' = scans m ∧ waited m' = waited m ∧ launched m' = launched m
      ∧ (∀ b, trace m' = trace m ++ [(i, b)] → b ≠ BrRegistered)
      ∧ ((code = 1%Z ∧ globals m' = globals m ∧ wrote_stderr m m')
         ∨ (code = 0%Z ∧ folder_command argv i m m'))
  | Throw p m' =>
      m' = log_branch i BrOverrideRoot m ∧ override_root_throws argv i p
  end.

(** The course of the scan up to a loop head with index [i]: the indices
    visited so far, oldest first, increase strictly, lie in [1 .. argc - 1]
    and below [i], and a callback of [arg_map] ran only at an effect-only
    flag. *)
Record pass_so_far (argv : list string) (i : nat) (m : Machine) : Prop := {
  pass_sorted : StronglySorted lt (trace m).*1;
  pass_below : Forall (λ k, 1 ≤ k < i ∧ k < length argv) (trace m).*1;
  pass_length : length (trace m) < i ∧ length (trace m) ≤ length argv - 1;
  pass_registered :
    ∀ k, (k, BrRegistered) ∈ trace m → In (argv_at argv k) effect_only_flags;
}.

End Effects.

(* ------------------------------------------------------------------ *)
(** ** Game metadata (src/core/game_metadata.{h,cpp})                 *)
(* ------------------------------------------------------------------ *)

(** What [LOG_INFO] and [LOG_ERROR] (common/logging/log.h) are given: the
    log class, the format string and the arguments, in the order of the
    calls. *)
Module Log.

Inductive Level := Info | Error.

Inductive Channel := Loader | Common | Config.

Inductive Arg :=
| Str (s : string)
| Num (n : Z).

Record Entry := {
  level : Level;
  channel : Channel;
  format : string;
  args : list Arg;
}.

End Log.

Module Hex.

(** [isxdigit] in the "C" locale and the value of a hexadecimal digit. *)
Definition isxdigit (c : ascii) : bool :=
  let n := nat_of_ascii c in
  ((48 <=? n) && (n <=? 57)) || ((65 <=? n) && (n <=? 70))
  || ((97 <=? n) && (n <=? 102)).

Definition xdigit_value (c : ascii) : Z :=
  let n := nat_of_ascii c in
  if n <=? 57 then Z.of_nat (n - 48)
  else if n <=? 70 then Z.of_nat (n - 55)
  else Z.of_nat (n - 87).

(** Value of the longest run of hexadecimal digits at the head of [s],
    continuing the accumulator [acc]. *)
Fixpoint xdigit_run (acc : Z) (s : string) : Z :=
  match s with
  | String c s' =>
      if isxdigit c then xdigit_run (16 * acc + xdigit_value c) s' else acc
  | EmptyString => acc
  end.

Definition starts_with_xdigit (s : string) : bool :=
  match s with
  | String c _ => isxdigit c
  | EmptyString => false
  end.

(** The optional prefix [0x] or [0X] that [strtol] accepts in base 16: it
    is part of the number only when a hexadecimal digit follows. *)
Definition skip_0x (s : string) : string :=
  match s with
  | String c0 (String c1 r) =>
      if Ascii.eqb c0 "0" && (Ascii.eqb c1 "x" || Ascii.eqb c1 "X")
         && starts_with_xdigit r
      then r else s
  | _ => s
  end.

(** [std::stoi(str, nullptr, 16)]. *)
Definition stoi (s : string) : Stoi.result :=
  let s1 := Stoi.skip_space s in
  let '(neg, s2) :=
    match s1 with
    | String c r =>
        if Ascii.eqb c "-" then (true, r)
        else if Ascii.eqb c "+" then (false, r)
        else (false, s1)
    | EmptyString => (false, s1)
    end in
  let s3 := skip_0x s2 in
  if starts_with_xdigit s3 then
    let v := xdigit_run 0 s3 in
    let v := if neg then (- v)%Z else v in
    if Stoi.fits_int v then Stoi.Value v else Stoi.OutOfRange
  else Stoi.InvalidArgument.

(** A string of hexadecimal digits only. *)
Fixpoint all_xdigits (s : string) : bool :=
  match s with
  | EmptyString => true
  | String c s' => isxdigit c && all_xdigits s'
  end.

End Hex.

Module Cxx.

(** The exceptions of the standard library that the code lets escape. *)
Inductive Exception := out_of_range | invalid_argument.

Inductive Outcome (A : Type) :=
| Returns (a : A)
| Throws (e : Exception).
Arguments Returns {A} a.
Arguments Throws {A} e.

Definition bind {A B} (o : Outcome A) (k : A → Outcome B) : Outcome B :=
  match o with
  | Returns a => k a
  | Throws e => Throws e
  end.

(** [std::string(sv, pos, n)]: the characters of [sv] from [pos], at most
    [n] of them; [out_of_range] when [pos] exceeds the size. *)
Definition string_from (sv : string) (pos n : nat) : Outcome string :=
  if String.length sv <? pos then Throws out_of_range
  else Returns (String.substring pos n sv).

(** [sv.find(needle, pos)]; [None] stands for [npos]. *)
Definition find (sv needle : string) (pos : nat) : option nat :=
  String.index pos needle sv.

(** The characters a [const char*] into a null-terminated buffer
    designates: those before the first null character. *)
Fixpoint c_str (s : string) : string :=
  match s with
  | EmptyString => EmptyString
  | String c s' => if Ascii.eqb c Ascii.zero then EmptyString else String c (c_str s')
  end.

(** The characters of [s] from position [pos] on. *)
Definition from (pos : nat) (s : string) : string :=
  String.substring pos (String.length s - pos) s.

(** Conversion to [uint32_t] and arithmetic of [u64]. *)
Definition to_u32 (z : Z) : Z := (z mod 2 ^ 32)%Z.
Definition u64 (z : Z) : Z := (z mod 2 ^ 64)%Z.

End Cxx.

Section Metadata.

Context {FS : StdFilesystem}.

(** [Core::PSFData] (game_metadata.h, lines 17-27). *)
Record PSFData := {
  psf_id : string;
  psf_title : string;
  psf_app_version : string;
  psf_fw_version : Z;
  psf_sdk_version : Z;
  psf_splash_path : path;
  psf_is_psvr_supported : bool;
  psf_is_psvr_required : bool;
}.

(** The parser of param.sfo files ([PSF], core/file_format/psf.h) and the
    bit fields of [Common::PSFAttributes], as [LoadPSFData] uses them: what
    [Open] answers for a file, and what [GetString] and [GetInteger]
    answer once that file is open.  [GetString] yields a view of a whole
    null-terminated string. *)
Class PSF := {
  psf_Open : path → bool;
  psf_GetString : path → string → option string;
  psf_GetInteger : path → string → option Z;
  support_ps_vr : Z → bool;
  require_ps_vr : Z → bool;
}.

Context {Sfo : PSF}.

(** Lines 41-56: the SDK version from the PUBTOOLINFO entry, [fw_version]
    when that names none. *)
Definition sdk_version_of (pubtool_info : string) (fw_version : Z)
  : Cxx.Outcome Z :=
  match Cxx.find pubtool_info "sdk_ver" 0 with
  | Some sdk_ver_offset =>
      let sdk_ver_offset := Cxx.u64 (Z.of_nat sdk_ver_offset + 8) in
      let sdk_ver_len :=
        match Cxx.find pubtool_info "," (Z.to_nat sdk_ver_offset) with
        | Some k => Z.of_nat k
        | None => Z.of_nat (String.length pubtool_info)
        end in
      let sdk_ver_len := Cxx.u64 (sdk_ver_len - sdk_ver_offset) in
      (* [substr(pos, n)] throws when [pos] exceeds the size; the pointer
         [data()] of the result is then read as a C string *)
      if (Z.of_nat (String.length pubtool_info) <? sdk_ver_offset)%Z
      then Cxx.Throws Cxx.out_of_range
      else
        let sdk_ver_string :=
          Cxx.c_str (Cxx.from (Z.to_nat sdk_ver_offset) pubtool_info) in
        match Hex.stoi sdk_ver_string with
        | Stoi.Value v => Cxx.Returns (Cxx.to_u32 v)
        | Stoi.InvalidArgument => Cxx.Throws Cxx.invalid_argument
        | Stoi.OutOfRange => Cxx.Throws Cxx.out_of_range
        end
  | None => Cxx.Returns fw_version
  end.

(** Lines 26-33: the game ID. *)
Definition game_id_of (content_id title_id : option string)
  : Cxx.Outcome string :=
  match content_id with
  | Some c =>
      if negb (c == EmptyString) then Cxx.string_from c 7 9
      else
        match title_id with
        | Some t => Cxx.Returns t
        | None => Cxx.Returns EmptyString
        end
  | None =>
      match title_id with
      | Some t => Cxx.Returns t
      | None => Cxx.Returns EmptyString
      end
  end.

(** [LoadPSFData] (game_metadata.cpp, lines 13-67): the log entries made
    and the result, or the exception of the string operations that
    escapes.  The function is handed a file below the folder of a game
    that [main] found to exist; the status query of line 14 is taken to
    succeed. *)
Definition LoadPSFData (param_sfo_path : path)
  : list Log.Entry * Cxx.Outcome (option PSFData) :=
  if negb (fs_exists param_sfo_path) then ([], Cxx.Returns None)
  else if negb (psf_Open param_sfo_path) then
    ([ {| Log.level := Log.Error; Log.channel := Log.Loader;
          Log.format := "Failed to open param.sfo"; Log.args := [] |} ],
     Cxx.Returns None)
  else
    let GetString := psf_GetString param_sfo_path in
    let GetInteger := psf_GetInteger param_sfo_path in
    let content_id := GetString "CONTENT_ID" in
    let title_id := GetString "TITLE_ID" in
    ([],
     Cxx.bind (game_id_of content_id title_id) (fun id =>
     let title := default "Unknown title" (GetString "TITLE") in
     let fw_version :=
       Cxx.to_u32 (default 74448896%Z (GetInteger "SYSTEM_VER")) in
     let app_version := default "Unknown version" (GetString "APP_VER") in
     let pubtool_info := default "Unknown value" (GetString "PUBTOOLINFO") in
     Cxx.bind (sdk_version_of pubtool_info fw_version) (fun sdk_version =>
     let '(supported, required) :=
       match GetInteger "ATTRIBUTE" with
       | Some raw => (support_ps_vr raw, require_ps_vr raw)
       | None => (false, false)
       end in
     Cxx.Returns
       (Some {| psf_id := id; psf_title := title;
                psf_app_version := app_version;
                psf_fw_version := fw_version;
                psf_sdk_version := sdk_version;
                psf_splash_path := path_of_string EmptyString;
                psf_is_psvr_supported := supported;
                psf_is_psvr_required := required |})))).

(** [max_logged_args] of [LogGameArguments] (line 122). *)
Definition max_logged_args : nat := 32.

Definition game_argument_entry (i : nat) (arg : string) : Log.Entry :=
  {| Log.level := Log.Info; Log.channel := Log.Loader;
     Log.format := "Game argument {}: {}";
     Log.args := [Log.Num (Z.of_nat i); Log.Str arg] |}.

Definition too_many_arguments_entry : Log.Entry :=
  {| Log.level := Log.Error; Log.channel := Log.Loader;
     Log.format := "Too many game arguments, only passing the first {}";
     Log.args := [Log.Num (Z.of_nat max_logged_args)] |}.

(** The loop of lines 125-127, with [n] iterations to go from index [i]. *)
Fixpoint LogGameArguments_loop (args : list string) (i n : nat)
  : list Log.Entry :=
  match n with
  | 0 => []
  | S n' =>
      game_argument_entry i (nth i args EmptyString)
      :: LogGameArguments_loop args (i + 1) n'
  end.

(** [LogGameArguments] (lines 117-132): the log entries it makes. *)
Definition LogGameArguments (args : list string) : list Log.Entry :=
  if length args =? 0 then []
  else
    let argc := Nat.min (length args) max_logged_args in
    LogGameArguments_loop args 0 argc
    ++ (if max_logged_args <? length args
        then [too_many_arguments_entry] else []).

End Metadata.

Arguments PSFData {FS}.
Arguments PSF {FS}.

(** A param.sfo on the concrete file system: the one of [CUSA00001] opens
    and holds the entries below, [/games/MyGame/param.sfo] exists and does
    not open. *)
Module DemoSfo.

Definition sfo_files : list string :=
  [ "/games/CUSA00001/param.sfo"; "/games/MyGame/param.sfo";
    "/games/Solo-patch/param.sfo"; "/more/param.sfo"; "/param.sfo" ].

Definition fs : StdFilesystem := {|
  path := string;
  path_of_string := fun s => s;
  parent_path := Demo.demo_parent;
  filename := Demo.demo_filename;
  path_append := Demo.demo_append;
  status_fails := Demo.name_too_long;
  fs_exists := fun p =>
    Demo.mem p Demo.directories || Demo.mem p Demo.files || Demo.mem p sfo_files;
  is_directory := fun p => Demo.mem p Demo.directories;
  is_regular_file := fun p => Demo.mem p Demo.files || Demo.mem p sfo_files;
|}.

(** The string entries of each file: a retail game, a file whose SDK
    version does not fit an [int], one with nothing after [sdk_ver=], and
    one with a short CONTENT_ID. *)
Definition strings (p : string) : list (string * string) :=
  if String.eqb p "/games/Solo-patch/param.sfo" then
    [ ("TITLE_ID", "CUSA00002");
      ("PUBTOOLINFO", "c_date=20191021,sdk_ver=FFFFFFFF,st_type=digital50") ]
  else if String.eqb p "/more/param.sfo" then
    [ ("TITLE_ID", "CUSA00003");
      ("PUBTOOLINFO", "sdk_ver=") ]
  else if String.eqb p "/param.sfo" then
    [ ("CONTENT_ID", "CUSA");
      ("TITLE_ID", "CUSA00004") ]
  else
    [ ("CONTENT_ID", "EP0001-CUSA00001_00-GAME000000000000");
      ("TITLE_ID", "CUSA00001");
      ("TITLE", "A Game");
      ("PUBTOOLINFO", "c_date=20191021,sdk_ver=04508101,st_type=digital50") ].

Definition lookup_string (p key : string) : option string :=
  snd <$> List.find (fun e => String.eqb (fst e) key) (strings p).

(** [/games/MyGame/param.sfo] exists but is not a valid file. *)
Definition sfo : @PSF fs :=
  @Build_PSF fs
    (fun p => negb (String.eqb p "/games/MyGame/param.sfo"))
    lookup_string
    (fun _ key => if String.eqb key "SYSTEM_VER" then Some 72351744%Z else None)
    (fun raw => Z.testbit raw 2)
    (fun raw => Z.testbit raw 3).

End DemoSfo.

(* ------------------------------------------------------------------ *)
(** ** Properties                                                      *)
(* ------------------------------------------------------------------ *)

Section Properties.

Context {FS : StdFilesystem} {Ext : Collaborators}.

(** *** One iteration of the loop of [Parse] *)

(** Running straight-line monadic code. *)
Ltac run := cbv [bind modify ret mark print exit gets PrintHelp].

Lemma arg_map_not_separator s cb : arg_map !! s = Some cb → s ≠ "--".
Proof.
  unfold arg_map, RegisterArguments; cbv zeta.
  rewrite !lookup_insert_Some, lookup_empty.
  intros H.
  repeat (destruct H as [[<- _]|[_ H]]; [discriminate|]). discriminate.
Qed.

Lemma arg_map_callback s cb i m :
  arg_map !! s = Some cb → s ≠ "-h" → s ≠ "--help" →
  ∃ m', cb i m = Ok i m' ∧ trace m' = trace m ∧ out m' = out m ∧ same_game m m'.
Proof.
  unfold arg_map, RegisterArguments; cbv zeta.
  rewrite !lookup_insert_Some, lookup_empty.
  intros H Hh Hhelp.
  repeat (destruct H as [[<- <-]|[_ H]];
          [first [congruence | eexists; split; [reflexivity|]; repeat split] |]).
  discriminate.
Qed.

Lemma drop_argv_at argv j :
  j < length argv → drop j argv = argv_at argv j :: drop (S j) argv.
Proof.
  revert j; induction argv as [|a l IH]; intros [|j] Hj; simpl in *; try lia; auto.
  apply IH. lia.
Qed.

Lemma push_game_args_spec argv n : ∀ j m, j + n = length argv →
  ∃ m', push_game_args argv j n m = Ok tt m'
    ∧ game_args (result m') = game_args (result m) ++ drop j argv
    ∧ has_game_argument (result m') = has_game_argument (result m)
    ∧ game_path (result m') = game_path (result m)
    ∧ trace m' = trace m ∧ out m' = out m.
Proof.
  induction n as [|n IH]; intros j m Hj.
  - exists m. simpl. rewrite drop_ge by lia. rewrite app_nil_r. done.
  - simpl. run.
    destruct (IH (j + 1) (upd_result (push_game_arg (argv_at argv j)) m))
      as (m' & E & Ha & Hh & Hp & Ht & Ho); [lia|].
    exists m'. split; [exact E|]. simpl in *.
    rewrite Ha, Hh, Hp, Ht, Ho. rewrite (drop_argv_at argv j) by lia.
    replace (j + 1) with (S j) by lia. rewrite <- app_assoc. done.
Qed.

(** The test of line 240: the first status query decides whether it
    throws; within one snapshot the second gives the same answer. *)
Lemma override_root_test folder m :
  bind (exists_throwing folder)
    (λ found, if found then is_directory_throwing folder else ret false) m =
  if status_fails folder then Throw folder m
  else Ok (fs_exists folder && is_directory folder) m.
Proof.
  unfold exists_throwing, is_directory_throwing, bind, throw, ret.
  by destruct (status_fails folder), (fs_exists folder).
Qed.

(** Case analysis on the condition at the head of the loop body. *)
Ltac branch E :=
  lazymatch goal with
  | |- body_post _ _ _ _ ((if ?c then _ else _) _) => destruct c eqn:E
  | |- body_post _ _ _ _ (match ?c with _ => _ end _) => destruct c eqn:E
  end.

Lemma flag2_not_separator (s a b : string) :
  (s == a) || (s == b) = true → a ≠ "--" → b ≠ "--" → s ≠ "--".
Proof.
  intros [E|E]%orb_true_iff; apply String.eqb_eq in E; congruence.
Qed.

Lemma flag1_not_separator (s a : string) :
  (s == a) = true → a ≠ "--" → s ≠ "--".
Proof. intros E%String.eqb_eq; congruence. Qed.

(** The current token is not the separator. *)
Ltac not_sep :=
  first [ eapply flag2_not_separator; [eassumption | discriminate | discriminate]
        | eapply flag1_not_separator; [eassumption | discriminate]
        | eapply arg_map_not_separator; eassumption
        | apply String.eqb_neq; assumption ].

(** Closing a branch of the loop body that exits, or that goes on. *)
Ltac finish_exit :=
  run; cbn; eexists; split; [reflexivity|];
  split; [reflexivity|]; split; [discriminate|]; split; [not_sep|];
  unfold same_game; cbn; done.

Ltac finish_ok :=
  run; cbn; eexists; split; [reflexivity|];
  split; [right; not_sep|];
  cbn; unfold same_game; cbn;
  repeat split; eauto with lia.

Lemma Parse_positional_post argv i m :
  i < length argv → (argv_at argv i == "--") = false →
  body_post (length argv) argv i m (Parse_positional (length argv) argv i m).
Proof.
  intros Hi Hsep. unfold Parse_positional, last_without_game, next_is_separator.
  cbv zeta. unfold gets at 1. unfold bind at 1.
  branch Hlast.
  - apply andb_true_iff in Hlast as [Hl%Nat.eqb_eq Hg%negb_true_iff].
    replace (i + 1 <? length argv) with false by (symmetry; apply Nat.ltb_ge; lia).
    cbn [andb].
    branch Hbare.
    + finish_ok; try lia.
      intros Hc. rewrite Hc in Hbare. discriminate.
    + finish_ok.
  - finish_ok.
Qed.

Lemma Parse_tail_post argv i m :
  i < length argv →
  body_post (length argv) argv i m (Parse_tail (length argv) argv i m).
Proof.
  intros Hi. unfold Parse_tail. cbv zeta.
  branch Hsep; [|by apply Parse_positional_post].
  apply String.eqb_eq in Hsep.
  unfold mark at 1, modify at 1, bind at 1.
  branch Hlast.
  - run; cbn. eexists; split; [reflexivity|]. split; [by left|].
    cbn. apply Nat.eqb_eq in Hlast. rewrite drop_ge by lia. rewrite app_nil_r. done.
  - unfold bind at 1.
    destruct (push_game_args_spec argv (length argv - (i + 1)) (i + 1)
                (log_branch i BrSeparator m))
      as (m' & -> & Ha & Hh & Hp & Ht & Ho); [lia|].
    run. eexists; split; [exact Ht|]. split; [by left|].
    cbn. rewrite Ha, Hh, Hp. done.
Qed.

Lemma Parse_body_post argv i m :
  i < length argv →
  body_post (length argv) argv i m (Parse_body (length argv) argv i m).
Proof.
  intros Hi. unfold Parse_body. cbv zeta.
  branch Hg.
  { branch Hn; [apply Nat.ltb_lt in Hn; finish_ok | finish_exit]. }
  branch Hp.
  { unfold mark at 1, modify at 1, bind at 1.
    branch Hn; [apply Nat.ltb_lt in Hn; finish_ok | finish_exit]. }
  branch Hf.
  { unfold mark at 1, modify at 1, bind at 1.
    branch Hn; [finish_exit|].
    apply Nat.leb_gt in Hn.
    unfold bind at 1.
    destruct (argv_at argv (i + 1) == "true"); [finish_ok|].
    destruct (argv_at argv (i + 1) == "false"); [finish_ok|].
    finish_exit. }
  branch Ha.
  { unfold mark at 1, modify at 1, bind at 1.
    branch Hn; [finish_exit|].
    branch Hv; finish_exit. }
  branch Hs.
  { unfold mark at 1, modify at 1, bind at 1.
    branch Hn; [finish_exit|].
    branch Hv; finish_exit. }
  branch Ho.
  { unfold mark at 1, modify at 1, bind at 1.
    branch Hn; [finish_exit|].
    apply Nat.leb_gt in Hn.
    unfold bind at 1. rewrite override_root_test.
    destruct (status_fails _); [finish_exit|].
    branch Hv; [finish_ok | finish_exit]. }
  branch Hw.
  { unfold mark at 1, modify at 1, bind at 1.
    branch Hn; [finish_exit|].
    apply Nat.leb_gt in Hn.
    branch Hv; [finish_ok | finish_exit | finish_exit]. }
  branch Hm; [|by apply Parse_tail_post].
  branch Hh; [|by apply Parse_tail_post].
  apply andb_true_iff in Hh as [H1%negb_true_iff%String.eqb_neq H2%negb_true_iff%String.eqb_neq].
  destruct (arg_map_callback _ _ i (log_branch i BrRegistered m) Hm H1 H2) as (m' & E & Ht & Hout & Hsame).
  unfold mark at 1, modify at 1, bind at 1. unfold bind at 1. rewrite E.
  run. eexists; split; [exact Ht|]. split; [right; not_sep|].
  cbn. split; [eauto with lia|]. exact Hsame.
Qed.

(** *** The loop of [Parse] *)

Lemma Parse_body_continue argv i m i' m' :
  i < length argv →
  Parse_body (length argv) argv i m = Ok (Continue i') m' →
  i ≤ i' < length argv.
Proof.
  intros Hi E. pose proof (Parse_body_post argv i m Hi) as H.
  rewrite E in H. destruct H as (b & _ & _ & H).
  destruct b; cbn in H; try done;
    first [ destruct H as [(j & [= ->] & ?) _] | destruct H as ([= ->] & ? & _) ];
    lia.
Qed.

Lemma Parse_loop_S fuel argc argv i m :
  Parse_loop (S fuel) argc argv i m =
  if i <? argc then
    match Parse_body argc argv i m with
    | Ok (Continue i') m' => Parse_loop fuel argc argv (i' + 1) m'
    | Ok Break m' => Some (Ok tt m')
    | Exit code m' => Some (Exit code m')
    | Throw p m' => Some (Throw p m')
    end
  else Some (Ok tt m).
Proof. reflexivity. Qed.

(** Induction along the iterations of the loop: [P] holds at every loop
    head, [Q] of every way the loop ends. *)
Lemma Parse_loop_ind argv (P : nat → Machine → Prop) (Q : Res unit → Prop) :
  (∀ i m, P i m → length argv ≤ i → Q (Ok tt m)) →
  (∀ i m, P i m → i < length argv →
     match Parse_body (length argv) argv i m with
     | Ok (Continue i') m' => P (i' + 1) m'
     | Ok Break m' => Q (Ok tt m')
     | Exit code m' => Q (Exit code m')
     | Throw p m' => Q (Throw p m')
     end) →
  ∀ fuel i m r,
    P i m → Parse_loop fuel (length argv) argv i m = Some r → Q r.
Proof.
  intros Hend Hstep. induction fuel as [|fuel IH]; intros i m r HP E.
  - discriminate.
  - rewrite Parse_loop_S in E.
    destruct (Nat.ltb_spec i (length argv)) as [Hi|Hi].
    + specialize (Hstep i m HP Hi).
      destruct (Parse_body (length argv) argv i m) as [[i'|] m'|code m'|p m'].
      * exact (IH _ _ _ Hstep E).
      * by injection E as <-.
      * by injection E as <-.
      * by injection E as <-.
    + injection E as <-. by eapply Hend.
Qed.

(** The loop terminates: more fuel than tokens left is enough. *)
Lemma Parse_loop_fuel argv fuel : ∀ i m,
  length argv - i < fuel →
  ∃ r, Parse_loop fuel (length argv) argv i m = Some r.
Proof.
  induction fuel as [|fuel IH]; intros i m Hf; [lia|].
  rewrite Parse_loop_S.
  destruct (Nat.ltb_spec i (length argv)) as [Hi|Hi]; [|eauto].
  destruct (Parse_body (length argv) argv i m) as [[i'|] m'|code m'|p m'] eqn:E;
    eauto.
  apply Parse_body_continue in E as [? ?]; [|done].
  apply IH. lia.
Qed.

(** [Parse] ends on every token list. *)
Lemma Parse_total argv m : ∃ r, Parse argv m = Some r.
Proof.
  unfold Parse. destruct (length argv =? 1); [eauto|].
  edestruct (Parse_loop_fuel argv (S (length argv)) 1) as [r ->]; [lia|].
  destruct r; eauto.
Qed.

(** *** The invariant of the scan *)

Lemma trace_snoc (l : list (nat * Branch)) i b k b' :
  (k, b') ∈ l ++ [(i, b)] ↔ (k, b') ∈ l ∨ (k = i ∧ b' = b).
Proof.
  rewrite elem_of_app, list_elem_of_singleton.
  split; (intros [?|H]; [by left|right]); [by injection H | by destruct H as [-> ->]].
Qed.

Lemma scanning_init argv m :
  scanning argv (clear_trace (upd_result (λ _, ParsedArgs_default) m)).
Proof.
  split; cbn; try done.
  - intros k b H. by apply elem_of_nil in H.
  - split; [done|]. intros (k & b & H & _). by apply elem_of_nil in H.
Qed.

Lemma scanning_emit argv s msg m :
  scanning argv m → scanning argv (emit s msg m).
Proof. intros [? ? ? ? ?]. by split. Qed.

(** An iteration that leaves the game fields alone keeps the invariant. *)
Lemma scanning_frame argv i b m m' :
  scanning argv m → i < length argv →
  trace m' = trace m ++ [(i, b)] →
  assigns_game_path b = false → b ≠ BrSeparator →
  argv_at argv i ≠ "--" →
  same_game m m' →
  scanning argv m'.
Proof.
  intros [Ha Ht Has Hu Hk] Hi Etr Hb Hsep Hne (Eh & Ep & Eg).
  split.
  - by rewrite Eg.
  - intros k b' [H|[-> ->]]%(proj1 (eq_ind_r (λ l, _ ∈ l ↔ _) (trace_snoc _ _ _ _ _) Etr)).
    + by apply Ht.
    + repeat split; try done; by destruct b.
  - rewrite Eh, Has. unfold game_path_assigned. rewrite Etr.
    split; intros (k & b' & H & Hb').
    + exists k, b'. rewrite trace_snoc. auto.
    + apply trace_snoc in H as [H|[-> ->]]; [eauto | congruence].
  - rewrite Eh, Ep. exact Hu.
  - rewrite Eh, Ep. exact Hk.
Qed.

(** An iteration that assigns the game path from the token at [j] keeps
    the invariant. *)
Lemma scanning_assign argv i j b m m' :
  scanning argv m → i < length argv → 1 ≤ j < length argv →
  trace m' = trace m ++ [(i, b)] →
  assigns_game_path b = true → b ≠ BrLegacy →
  (b = BrPositional →
     i = length argv - 1 ∧ Str.first_char (argv_at argv i) ≠ "-"%char) →
  argv_at argv i ≠ "--" →
  has_game_argument (result m') = true →
  game_path (result m') = argv_at argv j →
  game_args (result m') = game_args (result m) →
  scanning argv m'.
Proof.
  intros [Ha Ht Has Hu Hk] Hi Hj Etr Hb Hleg Hpos Hne Eh Ep Eg.
  split.
  - by rewrite Eg.
  - intros k b'. rewrite Etr, trace_snoc. intros [H|[-> ->]].
    + by apply Ht.
    + repeat split; try done; try (by intros ->); by apply Hpos.
  - split; [|done]. intros _. exists i, b. rewrite Etr, trace_snoc. auto.
  - congruence.
  - intros _. exists j. by rewrite Ep.
Qed.

Lemma scanning_continue argv i m i' m' :
  scanning argv m → 1 ≤ i < length argv →
  Parse_body (length argv) argv i m = Ok (Continue i') m' →
  scanning argv m'.
Proof.
  intros Hs [H1 Hi] E. pose proof (Parse_body_post argv i m Hi) as H.
  rewrite E in H. destruct H as (b & Etr & Hsep & H).
  destruct b; cbn in H; try done;
    try (by destruct H as ([=] & _));
    try (destruct H as [_ Hsame];
         eapply scanning_frame; try eassumption; try done;
         by destruct Hsep).
  - destruct H as (_ & Hlt & Eh & Ep & Eg).
    eapply (scanning_assign argv i (i + 1)); try eassumption; try done; try lia.
    by destruct Hsep.
  - destruct H as (_ & Hlast & Hno & Hbare & Eh & Ep & Eg).
    eapply (scanning_assign argv i i); try eassumption; try done.
    by destruct Hsep.
Qed.

Lemma scanning_exit argv i m code m' :
  scanning argv m → i < length argv →
  Parse_body (length argv) argv i m = Exit code m' →
  scanning argv m'.
Proof.
  intros Hs Hi E. pose proof (Parse_body_post argv i m Hi) as H.
  rewrite E in H. destruct H as (b & Etr & Hb & Hsep & Hne & Hsame).
  eapply scanning_frame; eassumption.
Qed.

Lemma scanning_throw argv i m p m' :
  scanning argv m → i < length argv →
  Parse_body (length argv) argv i m = Throw p m' →
  scanning argv m'.
Proof.
  intros Hs Hi E. pose proof (Parse_body_post argv i m Hi) as H.
  rewrite E in H. destruct H as (b & Etr & Hb & Hsep & Hne & Hsame).
  eapply scanning_frame; eassumption.
Qed.

Lemma scanning_break argv i m m' :
  scanning argv m → i < length argv →
  Parse_body (length argv) argv i m = Ok Break m' →
  scan_end argv m'.
Proof.
  intros Hs Hi E. pose proof (Parse_body_post argv i m Hi) as H.
  rewrite E in H. destruct H as (b & Etr & _ & H).
  destruct b; cbn in H; try done;
    try (by destruct H as [(j & [=] & _) _]);
    try (by destruct H as ([=] & _)).
  destruct H as (_ & Hsep & Eh & Ep & Eg).
  eapply end_at_separator; try eassumption.
  rewrite Eg, (scanning_args _ _ Hs). done.
Qed.

(** How [Parse] ends: on a return the scan reached the end of the tokens
    or the token [--]; on an exit or an exception it was still under
    way. *)
Lemma Parse_scan_end argv m0 :
  match Parse argv m0 with
  | Some (Ok r m) => r = result m ∧ scan_end argv m
  | Some (Exit _ m) | Some (Throw _ m) => scanning argv m
  | None => False
  end.
Proof.
  destruct (Parse_total argv m0) as [r E]. rewrite E.
  unfold Parse in E.
  destruct (length argv =? 1).
  - injection E as <-. apply scanning_emit, scanning_init.
  - set (m1 := clear_trace _) in E.
    destruct (Parse_loop (S (length argv)) (length argv) argv 1 m1) as [r'|] eqn:El;
      [|discriminate].
    assert (match r' with
            | Ok _ m => scan_end argv m
            | Exit _ m | Throw _ m => scanning argv m
            end) as Hr'.
    { eapply (Parse_loop_ind argv (λ i m, 1 ≤ i ∧ scanning argv m)
                (λ r, match r with
                      | Ok _ m => scan_end argv m
                      | Exit _ m | Throw _ m => scanning argv m
                      end)); [..|exact El].
      - intros i m [_ Hs] _. by apply end_of_tokens.
      - intros i m [H1 Hs] Hi.
        destruct (Parse_body (length argv) argv i m)
          as [[i'|] m'|code m'|p m'] eqn:Eb.
        + split; [lia|]. eapply scanning_continue; eauto.
        + eapply scanning_break; eauto.
        + eapply scanning_exit; eauto.
        + eapply scanning_throw; eauto.
      - split; [lia|]. apply scanning_init. }
    destruct r' as [[] m|code m|p m]; injection E as <-; auto.
Qed.

(** *** Game arguments after the separator *)

Lemma scanning_no_separator argv m k :
  scanning argv m → ¬ separator_reached argv m k.
Proof.
  intros Hs [[b Hb] Hk]. by destruct (scanning_trace _ _ Hs k b Hb) as (_ & ? & _).
Qed.

Lemma scan_end_separator argv m k :
  scan_end argv m → separator_reached argv m k →
  game_args (result m) = drop (k + 1) argv.
Proof.
  intros [Hs|k0 m1 Hs Hk0 Hsep Etr Eg _ _] Hr.
  - by apply scanning_no_separator in Hr.
  - destruct Hr as [[b Hb] Hk]. rewrite Etr, trace_snoc in Hb.
    destruct Hb as [Hb|[-> _]]; [|done].
    by destruct (scanning_trace _ _ Hs k b Hb) as (_ & ? & _).
Qed.

Lemma scan_end_no_separator argv m :
  scan_end argv m → (∀ k, ¬ separator_reached argv m k) →
  game_args (result m) = [].
Proof.
  intros [Hs|k0 m1 Hs Hk0 Hsep Etr Eg _ _] Hno.
  - apply (scanning_args _ _ Hs).
  - destruct (Hno k0). split; [|done].
    exists BrSeparator. rewrite Etr, trace_snoc. auto.
Qed.

(** C3.  When the scan of [Parse] reaches the token [--] at position [k],
    [game_args] is exactly the list of the tokens after position [k], in
    their order and unchanged, whatever they look like; when the scan
    reaches no [--], [game_args] is empty (and it is empty whenever
    [Parse] exits or is left by an exception instead of returning, in
    which case no [--] was reached). *)
Theorem game_args_after_separator (argv : list string) (m0 : Machine)
    (o : Res ParsedArgs) :
  Parse argv m0 = Some o →
  match o with
  | Ok r m =>
      (∀ k, separator_reached argv m k → game_args r = drop (k + 1) argv)
      ∧ ((∀ k, ¬ separator_reached argv m k) → game_args r = [])
  | Exit _ m | Throw _ m =>
      game_args (result m) = [] ∧ ∀ k, ¬ separator_reached argv m k
  end.
Proof.
  intros E. pose proof (Parse_scan_end argv m0) as H. rewrite E in H.
  destruct o as [r m|code m|p m].
  - destruct H as [-> He]. split.
    + intros k. by apply scan_end_separator.
    + by apply scan_end_no_separator.
  - split; [apply (scanning_args _ _ H)|].
    intros k. by apply scanning_no_separator.
  - split; [apply (scanning_args _ _ H)|].
    intros k. by apply scanning_no_separator.
Qed.

(** *** The game path and its flag *)

Lemma scan_end_assigned argv m :
  scan_end argv m →
  (has_game_argument (result m) = true ↔ game_path_assigned m)
  ∧ (has_game_argument (result m) = false → game_path (result m) = EmptyString)
  ∧ (has_game_argument (result m) = true →
       ∃ j, 1 ≤ j < length argv ∧ game_path (result m) = argv_at argv j).
Proof.
  intros [Hs|k0 m1 Hs Hk0 Hsep Etr Eg Eh Ep].
  - split; [apply (scanning_assigned _ _ Hs)|].
    split; [apply (scanning_unset _ _ Hs) | apply (scanning_token _ _ Hs)].
  - rewrite Eh, Ep. split; [|split].
    + rewrite (scanning_assigned _ _ Hs). unfold game_path_assigned. rewrite Etr.
      split; intros (k & b & H & Hb).
      * exists k, b. rewrite trace_snoc. auto.
      * apply trace_snoc in H as [H|[-> ->]]; [eauto|discriminate].
    + apply (scanning_unset _ _ Hs).
    + apply (scanning_token _ _ Hs).
Qed.

(** C8.  On every token list on which [Parse] returns, [has_game_argument]
    is true exactly when a game path was assigned during the scan.
    ([game_path] is a [std::string]: unset means never assigned, in which
    case it still holds its initial empty value; set, it holds one of the
    tokens.) *)
Theorem has_game_argument_iff_assigned (argv : list string) (m0 : Machine)
    (r : ParsedArgs) (m : Machine) :
  Parse argv m0 = Some (Ok r m) →
  (has_game_argument r = true ↔ game_path_assigned m)
  ∧ (has_game_argument r = false → game_path r = EmptyString)
  ∧ (has_game_argument r = true →
       ∃ j, 1 ≤ j < length argv ∧ game_path r = argv_at argv j).
Proof.
  intros E. pose proof (Parse_scan_end argv m0) as H. rewrite E in H.
  destruct H as [-> He]. by apply scan_end_assigned.
Qed.

(** *** The branch for a positional token before the separator *)

Lemma legacy_guard_false argc argv i m :
  last_without_game argc i m && next_is_separator argc argv i = false.
Proof.
  unfold last_without_game, next_is_separator.
  destruct (Nat.eqb_spec i (argc - 1)) as [->|]; [|done].
  destruct (Nat.ltb_spec (argc - 1 + 1) argc); [lia|].
  by rewrite andb_false_r.
Qed.

Lemma scan_end_trace argv m k b :
  scan_end argv m → (k, b) ∈ trace m →
  b ≠ BrLegacy
  ∧ (b = BrPositional →
       k = length argv - 1 ∧ Str.first_char (argv_at argv k) ≠ "-"%char).
Proof.
  intros [Hs|k0 m1 Hs Hk0 Hsep Etr _ _ _] Hb.
  - by destruct (scanning_trace _ _ Hs k b Hb) as (_ & _ & _ & ? & ?).
  - rewrite Etr, trace_snoc in Hb. destruct Hb as [Hb|[-> ->]]; [|done].
    by destruct (scanning_trace _ _ Hs k b Hb) as (_ & _ & _ & ? & ?).
Qed.

Lemma Parse_positional_eq argc argv i m :
  Parse_positional argc argv i m =
  if last_without_game argc i m
     && negb (Ascii.eqb (Str.first_char (argv_at argv i)) "-")
  then Ok (Continue i)
         (upd_result (set_has_game_argument true)
            (upd_result (set_game_path (argv_at argv i))
               (log_branch i BrPositional m)))
  else Ok (Continue i)
         (emit Stderr ("Unknown argument: " +:+ argv_at argv i +:+
                       ", see --help for info." +:+ Str.nl)
            (log_branch i BrUnknown m)).
Proof.
  pose proof (legacy_guard_false argc argv i m) as Hg.
  unfold Parse_positional. run.
  destruct (last_without_game argc i m); [|done].
  cbn in Hg. rewrite Hg. cbn.
  by destruct (Ascii.eqb _ _).
Qed.

(** C9.  The guard of the branch for a positional token followed by [--]
    (lines 283-289: [i == argc - 1], no game argument yet, [i + 1 < argc]
    and [argv[i + 1] == "--"]) is false in every state; accordingly no run
    of [Parse] takes that branch, the block at lines 283-295 reduces to
    the rule for a trailing bare token, and whenever that rule fires the
    token is the last one and has no leading dash. *)
Theorem legacy_branch_unreachable :
  (∀ argc argv i m,
     last_without_game argc i m && next_is_separator argc argv i = false)
  ∧ (∀ argc argv i m,
       Parse_positional argc argv i m =
       if last_without_game argc i m
          && negb (Ascii.eqb (Str.first_char (argv_at argv i)) "-")
       then Ok (Continue i)
              (upd_result (set_has_game_argument true)
                 (upd_result (set_game_path (argv_at argv i))
                    (log_branch i BrPositional m)))
       else Ok (Continue i)
              (emit Stderr ("Unknown argument: " +:+ argv_at argv i +:+
                            ", see --help for info." +:+ Str.nl)
                 (log_branch i BrUnknown m)))
  ∧ (∀ argv m0 o, Parse argv m0 = Some o →
       ∀ k b, (k, b) ∈ trace (machine_of o) →
         b ≠ BrLegacy
         ∧ (b = BrPositional →
              k = length argv - 1
              ∧ Str.first_char (argv_at argv k) ≠ "-"%char)).
Proof.
  split; [exact legacy_guard_false|]. split.
  - exact Parse_positional_eq.
  - intros argv m0 o E k b Hb.
    pose proof (Parse_scan_end argv m0) as H. rewrite E in H.
    destruct o as [r m|code m|p m]; cbn in Hb.
    + destruct H as [_ He]. by eapply scan_end_trace.
    + by destruct (scanning_trace _ _ H k b Hb) as (_ & _ & _ & ? & ?).
    + by destruct (scanning_trace _ _ H k b Hb) as (_ & _ & _ & ? & ?).
Qed.

(** *** Single flags *)

(** An exit inside the loop body ends [Parse_loop] with that exit. *)
Lemma Parse_loop_exit fuel argv i m code m' :
  i < length argv →
  Parse_body (length argv) argv i m = Exit code m' →
  Parse_loop (S fuel) (length argv) argv i m = Some (Exit code m').
Proof.
  intros Hi E. rewrite Parse_loop_S, E.
  by destruct (Nat.ltb_spec i (length argv)); [|lia].
Qed.

(** So does an exception. *)
Lemma Parse_loop_throw fuel argv i m p m' :
  i < length argv →
  Parse_body (length argv) argv i m = Throw p m' →
  Parse_loop (S fuel) (length argv) argv i m = Some (Throw p m').
Proof.
  intros Hi E. rewrite Parse_loop_S, E.
  by destruct (Nat.ltb_spec i (length argv)); [|lia].
Qed.

Lemma Parse_loop_continue fuel argv i m i' m' :
  i < length argv →
  Parse_body (length argv) argv i m = Ok (Continue i') m' →
  Parse_loop (S fuel) (length argv) argv i m =
  Parse_loop fuel (length argv) argv (i' + 1) m'.
Proof.
  intros Hi E. rewrite Parse_loop_S, E.
  by destruct (Nat.ltb_spec i (length argv)); [|lia].
Qed.

Lemma Parse_loop_done fuel argv i m :
  0 < fuel → length argv ≤ i →
  Parse_loop fuel (length argv) argv i m = Some (Ok tt m).
Proof.
  destruct fuel; [lia|]. intros _ Hi. rewrite Parse_loop_S.
  by destruct (Nat.ltb_spec i (length argv)); [lia|].
Qed.



(** *** [--wait-for-pid] and [std::stoi] *)

Lemma isdigit_not_space c : Stoi.isdigit c = true → Stoi.isspace c = false.
Proof.
  unfold Stoi.isdigit, Stoi.isspace.
  intros [H1%Nat.leb_le H2%Nat.leb_le]%andb_true_iff.
  apply orb_false_iff; split; [apply Nat.eqb_neq; lia|].
  apply andb_false_iff. right. apply Nat.leb_gt. lia.
Qed.

Lemma stoi_minus r :
  Stoi.stoi (String "-" r) =
  if Stoi.starts_with_digit r then
    if Stoi.fits_int (- Stoi.digit_run 0 r) then Stoi.Value (- Stoi.digit_run 0 r)
    else Stoi.OutOfRange
  else Stoi.InvalidArgument.
Proof. reflexivity. Qed.

Lemma stoi_plus r :
  Stoi.stoi (String "+" r) =
  if Stoi.starts_with_digit r then
    if Stoi.fits_int (Stoi.digit_run 0 r) then Stoi.Value (Stoi.digit_run 0 r)
    else Stoi.OutOfRange
  else Stoi.InvalidArgument.
Proof. reflexivity. Qed.

Lemma stoi_digit c r :
  Stoi.isdigit c = true →
  Stoi.stoi (String c r) =
  if Stoi.fits_int (Stoi.digit_run 0 (String c r))
  then Stoi.Value (Stoi.digit_run 0 (String c r)) else Stoi.OutOfRange.
Proof.
  intros Hc. unfold Stoi.stoi. cbn [Stoi.skip_space].
  rewrite (isdigit_not_space c Hc). cbv zeta.
  destruct (Ascii.eqb_spec c "-") as [->|_]; [discriminate|].
  destruct (Ascii.eqb_spec c "+") as [->|_]; [discriminate|].
  cbn [Stoi.starts_with_digit]. by rewrite Hc.
Qed.

(** [std::stoi] on a base-10 integer: its value when that fits an [int],
    [out_of_range] otherwise; never [invalid_argument]. *)
Lemma stoi_base10_integer s :
  Stoi.is_base10_integer s = true →
  Stoi.stoi s =
  if Stoi.fits_int (Stoi.decimal_value s)
  then Stoi.Value (Stoi.decimal_value s) else Stoi.OutOfRange.
Proof.
  destruct s as [|c r]; [done|].
  unfold Stoi.is_base10_integer, Stoi.decimal_value.
  destruct (Ascii.eqb_spec c "-") as [->|Hm]; cbn [orb].
  { intros [Hs _]%andb_true_iff. by rewrite stoi_minus, Hs. }
  destruct (Ascii.eqb_spec c "+") as [->|Hp].
  { intros [Hs _]%andb_true_iff. by rewrite stoi_plus, Hs. }
  intros [Hc _]%andb_true_iff. by apply stoi_digit.
Qed.

Lemma Parse_body_wait_for_pid argv i m :
  argv_at argv i = "--wait-for-pid" → i + 1 < length argv →
  Parse_body (length argv) argv i m =
  match Stoi.stoi (argv_at argv (i + 1)) with
  | Stoi.Value n =>
      Ok (Continue (i + 1))
         (upd_result (set_wait_pid n) (log_branch i BrWaitForPid m))
  | e =>
      Exit 1 (emit Stderr ("Error: Invalid PID argument: " +:+
                           stoi_what e +:+ Str.nl)
                (log_branch i BrWaitForPid m))
  end.
Proof.
  intros Hcur Hi. unfold Parse_body. cbv zeta. rewrite Hcur.
  replace (length argv <=? i + 1) with false by (symmetry; apply Nat.leb_gt; lia).
  cbn [String.eqb Ascii.eqb Bool.eqb orb]. run.
  by destruct (Stoi.stoi (argv_at argv (i + 1))).
Qed.

(** C6, as the code has it.  When the scan is at [--wait-for-pid] followed
    by a value: if [std::stoi] converts the value to [n], [wait_pid] becomes
    [n] and the scan goes on after the value; if [std::stoi] fails (no
    digit after optional white space and sign, or a number that does not
    fit an [int]) the parser writes the message for an invalid PID to the
    error stream and ends the process with exit code 1, [wait_pid] being
    what it was.  For the token list of the flag and its value alone,
    [wait_pid] is set on return exactly when [std::stoi] succeeds.  A
    base-10 integer is accepted exactly when it fits an [int]. *)
Theorem wait_for_pid_follows_stoi (fuel : nat) (argv : list string)
    (i : nat) (m : Machine) :
  argv_at argv i = "--wait-for-pid" → i + 1 < length argv →
  let v := argv_at argv (i + 1) in
  let m1 := log_branch i BrWaitForPid m in
  (∀ n, Stoi.stoi v = Stoi.Value n →
     Parse_loop (S fuel) (length argv) argv i m =
     Parse_loop fuel (length argv) argv (i + 2)
       (upd_result (set_wait_pid n) m1))
  ∧ ((∀ n, Stoi.stoi v ≠ Stoi.Value n) →
       ∃ m', Parse_loop (S fuel) (length argv) argv i m = Some (Exit 1 m')
             ∧ m' = emit Stderr ("Error: Invalid PID argument: " +:+
                                 stoi_what (Stoi.stoi v) +:+ Str.nl) m1
             ∧ wait_pid (result m') = wait_pid (result m))
  ∧ (length argv = 3 → i = 1 → ∀ m0,
       match Parse argv m0 with
       | Some (Ok r _) => ∃ n, Stoi.stoi v = Stoi.Value n ∧ wait_pid r = Some n
       | Some (Exit code m') =>
           code = 1%Z ∧ (∀ n, Stoi.stoi v ≠ Stoi.Value n)
           ∧ wait_pid (result m') = None
       | Some (Throw _ _) | None => False
       end)
  ∧ (Stoi.is_base10_integer v = true →
       Stoi.stoi v =
       if Stoi.fits_int (Stoi.decimal_value v)
       then Stoi.Value (Stoi.decimal_value v) else Stoi.OutOfRange).
Proof.
  intros Hcur Hi v m1.
  pose proof (Parse_body_wait_for_pid argv i m Hcur Hi) as Hb. fold v m1 in Hb.
  split; [|split; [|split]].
  - intros n Hn. rewrite Hn in Hb.
    rewrite (Parse_loop_continue fuel argv i m _ _ ltac:(lia) Hb).
    by replace (i + 1 + 1) with (i + 2) by lia.
  - intros Hno. eexists. split; [|split; [reflexivity|reflexivity]].
    apply Parse_loop_exit; [lia|].
    rewrite Hb. destruct (Stoi.stoi v) as [n| |]; [by destruct (Hno n)|done..].
  - intros Hlen -> m0. unfold Parse.
    replace (length argv =? 1) with false by (by rewrite Hlen).
    set (mi := clear_trace _).
    pose proof (Parse_body_wait_for_pid argv 1 mi Hcur Hi) as Hbi. fold v in Hbi.
    destruct (Stoi.stoi v) as [n| |] eqn:Es.
    + rewrite (Parse_loop_continue _ argv 1 mi _ _ ltac:(lia) Hbi).
      rewrite Parse_loop_done by lia.
      by exists n.
    + rewrite (Parse_loop_exit _ argv 1 mi _ _ ltac:(lia) Hbi).
      repeat split; done.
    + rewrite (Parse_loop_exit _ argv 1 mi _ _ ltac:(lia) Hbi).
      repeat split; done.
  - apply stoi_base10_integer.
Qed.

(** *** The help flags *)

Lemma Parse_body_help argv i m :
  argv_at argv i = "-h" ∨ argv_at argv i = "--help" →
  Parse_body (length argv) argv i m =
  Ok (Continue i)
     (emit Stderr ("Unknown argument: " +:+ argv_at argv i +:+
                   ", see --help for info." +:+ Str.nl)
        (log_branch i BrUnknown m)).
Proof.
  intros Hcur. unfold Parse_body, Parse_tail. cbv zeta.
  destruct Hcur as [E|E]; rewrite E; cbn [String.eqb Ascii.eqb Bool.eqb orb];
    [ change (arg_map !! "-h") with (Some help_callback)
    | change (arg_map !! "--help") with (Some help_callback) ];
    cbn [String.eqb Ascii.eqb Bool.eqb orb andb negb];
    rewrite Parse_positional_eq, E;
    cbn [Ascii.eqb Bool.eqb andb negb Str.first_char];
    by rewrite andb_false_r.
Qed.

(** C1 on the code.  [-h] and [--help] are registered with the callback
    that prints the usage text and exits with code 0, but the dispatch of
    [Parse] (line 265) leaves these two spellings out: wherever the scan
    meets one of them it reports it as an unknown argument on the error
    stream and goes on.  On the token list of a program name and [-h]
    alone, [Parse] returns the default result having printed nothing on
    the standard output. *)
Theorem help_flag_reported_unknown (fuel : nat) (argv : list string)
    (i : nat) (m : Machine) :
  i < length argv →
  argv_at argv i = "-h" ∨ argv_at argv i = "--help" →
  arg_map !! argv_at argv i = Some help_callback
  ∧ Parse_loop (S fuel) (length argv) argv i m =
    Parse_loop fuel (length argv) argv (i + 1)
      (emit Stderr ("Unknown argument: " +:+ argv_at argv i +:+
                    ", see --help for info." +:+ Str.nl)
         (log_branch i BrUnknown m))
  ∧ (length argv = 2 → i = 1 → ∀ m0,
       Parse argv m0 =
       Some (Ok ParsedArgs_default
               (emit Stderr ("Unknown argument: " +:+ argv_at argv i +:+
                             ", see --help for info." +:+ Str.nl)
                  (log_branch 1 BrUnknown
                     (clear_trace
                        (upd_result (λ _, ParsedArgs_default) m0)))))).
Proof.
  intros Hi Hcur. split; [|split].
  - by destruct Hcur as [-> | ->].
  - apply Parse_loop_continue; [done|]. by apply Parse_body_help.
  - intros Hlen -> m0. unfold Parse.
    replace (length argv =? 1) with false by (by rewrite Hlen).
    rewrite (Parse_loop_continue _ argv 1 _ _ _ Hi (Parse_body_help argv 1 _ Hcur)).
    by rewrite Parse_loop_done by lia.
Qed.

(** *** Bare tokens *)

Lemma bare_neq (s t : string) :
  Str.first_char s ≠ "-"%char → Str.first_char t = "-"%char → (s == t) = false.
Proof. intros Hs Ht. apply String.eqb_neq. by intros ->. Qed.

Lemma arg_map_bare s : Str.first_char s ≠ "-"%char → arg_map !! s = None.
Proof.
  intros H. unfold arg_map, RegisterArguments. cbv zeta.
  rewrite !lookup_insert_ne; [apply lookup_empty|..]; intros <-; by apply H.
Qed.

(** A token without a leading dash reaches the block of lines 283-297. *)
Lemma Parse_body_bare argc argv i m :
  Str.first_char (argv_at argv i) ≠ "-"%char →
  Parse_body argc argv i m = Parse_positional argc argv i m.
Proof.
  intros H. unfold Parse_body, Parse_tail. cbv zeta.
  rewrite !(bare_neq _ _ H) by reflexivity.
  pose proof (arg_map_bare _ H) as E.
  by match goal with
     | |- context [match ?l with Some _ => _ | None => _ end] =>
         change l with (arg_map !! argv_at argv i); rewrite E
     end.
Qed.

(** C2, as the code has it.  A token without a leading dash that the scan
    reaches as the last token while [has_game_argument] is false becomes
    the game path, and the scan ends there; in particular a command line
    of one such token returns it as the game path.  On the tokens
    [game.elf -- --flag value] after the program name, [Parse] returns
    with the game arguments [--flag value]. *)
Theorem trailing_bare_token_is_game_path (fuel : nat) (argv : list string)
    (i : nat) (m : Machine) :
  i < length argv →
  i = length argv - 1 →
  Str.first_char (argv_at argv i) ≠ "-"%char →
  has_game_argument (result m) = false →
  (∃ m', Parse_loop (S (S fuel)) (length argv) argv i m = Some (Ok tt m')
         ∧ has_game_argument (result m') = true
         ∧ game_path (result m') = argv_at argv i
         ∧ trace m' = trace m ++ [(i, BrPositional)])
  ∧ (i = 1 → ∀ m0, ∃ r m',
       Parse argv m0 = Some (Ok r m')
       ∧ has_game_argument r = true ∧ game_path r = argv_at argv 1)
  ∧ (∀ prog m0, ∃ r m',
       Parse [prog; "game.elf"; "--"; "--flag"; "value"] m0 = Some (Ok r m')
       ∧ game_args r = ["--flag"; "value"]).
Proof.
  intros Hi Hlast Hbare Hno.
  assert (∀ m1, has_game_argument (result m1) = false →
            Parse_body (length argv) argv i m1 =
            Ok (Continue i)
               (upd_result (set_has_game_argument true)
                  (upd_result (set_game_path (argv_at argv i))
                     (log_branch i BrPositional m1)))) as Hb.
  { intros m1 Hm1. rewrite Parse_body_bare, Parse_positional_eq by done.
    apply Ascii.eqb_neq in Hbare. rewrite Hbare, andb_true_r.
    unfold last_without_game. rewrite Hm1.
    by replace (i =? length argv - 1) with true by (symmetry; by apply Nat.eqb_eq). }
  split; [|split].
  - eexists. split.
    { rewrite (Parse_loop_continue _ argv i m _ _ Hi (Hb m Hno)).
      by rewrite Parse_loop_done by lia. }
    done.
  - intros -> m0. unfold Parse.
    replace (length argv =? 1) with false by (symmetry; apply Nat.eqb_neq; lia).
    set (mi := clear_trace _).
    rewrite (Parse_loop_continue _ argv 1 mi _ _ Hi (Hb mi eq_refl)).
    rewrite Parse_loop_done by lia. by eexists _, _.
  - intros prog m0. eexists _, _. split; reflexivity.
Qed.

(** *** Locating the game *)

Lemma log_scans_nil m : log_scans [] m = m.
Proof. destruct m. unfold log_scans. cbn. by rewrite app_nil_r. Qed.

Lemma log_scans_cons c cs m : log_scans cs (log_scan c m) = log_scans (c :: cs) m.
Proof. unfold log_scans, log_scan. cbn. by rewrite <- app_assoc. Qed.

(** The call made for the install directory [d]. *)
#[local] Abbreviation scan_of id := (λ d : path, (d, id, max_depth)).

Lemma ResolveGamePath_search_none dirs id : ∀ m,
  Forall (λ d, FindGameByID d id max_depth = None) dirs →
  ResolveGamePath_search dirs id m =
  Ok None (log_scans (scan_of id <$> dirs) m).
Proof.
  induction dirs as [|d dirs IH]; intros m Hnone.
  - cbn. by rewrite log_scans_nil.
  - apply Forall_cons in Hnone as [Hd Hnone].
    cbn. run. rewrite Hd, (IH _ Hnone). by rewrite log_scans_cons.
Qed.

Lemma ResolveGamePath_search_first pre d post id p : ∀ m,
  Forall (λ x, FindGameByID x id max_depth = None) pre →
  FindGameByID d id max_depth = Some p →
  ResolveGamePath_search (pre ++ d :: post) id m =
  Ok (Some p) (log_scans (scan_of id <$> (pre ++ [d])) m).
Proof.
  induction pre as [|x pre IH]; intros m Hnone Hd.
  - cbn. run. by rewrite Hd.
  - apply Forall_cons in Hnone as [Hx Hnone].
    cbn. run. rewrite Hx, (IH _ Hnone Hd). by rewrite log_scans_cons.
Qed.

(** [ResolveGamePath] once the test of line 49 is decided. *)
Lemma ResolveGamePath_throws raw m :
  status_fails (path_of_string raw) = true →
  ResolveGamePath raw m = Throw (path_of_string raw) m.
Proof.
  intros Hst. unfold ResolveGamePath, exists_throwing, bind, throw.
  by rewrite Hst.
Qed.

Lemma ResolveGamePath_existing raw m :
  status_fails (path_of_string raw) = false →
  fs_exists (path_of_string raw) = true →
  ResolveGamePath raw m = Ok (path_of_string raw) m.
Proof.
  intros Hst Hex. unfold ResolveGamePath, exists_throwing, bind, ret.
  by rewrite Hst, Hex.
Qed.

Lemma ResolveGamePath_searching raw m :
  status_fails (path_of_string raw) = false →
  fs_exists (path_of_string raw) = false →
  ResolveGamePath raw m =
  match ResolveGamePath_search (game_install_dirs (globals m)) raw m with
  | Ok (Some found_path) m' => Ok found_path m'
  | Ok None m' => Ok (path_of_string raw) m'
  | Exit code m' => Exit code m'
  | Throw p m' => Throw p m'
  end.
Proof.
  intros Hst Hex. unfold ResolveGamePath, exists_throwing.
  rewrite Hst. unfold bind at 1, ret at 1. rewrite Hex. run.
  by destruct (ResolveGamePath_search _ _ _) as [[?|] ?| |].
Qed.

(** C4 on the code.  [ResolveGamePath] on the identifier [raw] asks for
    the status of [raw] as a path with the overload of
    [std::filesystem::exists] that throws.  When the query fails (a name
    the system refuses, a directory on the way that may not be searched)
    no search is made and nothing is returned: the exception leaves the
    function with the state untouched.  When it succeeds: if [raw] names
    an existing entry the result is [raw] as a path and the state is
    untouched, so no install directory was scanned; otherwise, when [d] is
    the first configured install directory whose scan (to depth 5) finds
    the game, the result is what that scan found and the scans made are
    those of the directories up to [d], in the configured order, each with
    depth 5, the directories after [d] not being scanned. *)
Theorem ResolveGamePath_policy (raw : string) (m : Machine) :
  (status_fails (path_of_string raw) = true →
     ResolveGamePath raw m = Throw (path_of_string raw) m)
  ∧ (status_fails (path_of_string raw) = false →
       fs_exists (path_of_string raw) = true →
       ResolveGamePath raw m = Ok (path_of_string raw) m)
  ∧ (status_fails (path_of_string raw) = false →
       fs_exists (path_of_string raw) = false →
       ∀ pre d post p,
         game_install_dirs (globals m) = pre ++ d :: post →
         Forall (λ x, FindGameByID x raw 5 = None) pre →
         FindGameByID d raw 5 = Some p →
         ResolveGamePath raw m =
         Ok p (log_scans ((λ x, (x, raw, 5)) <$> (pre ++ [d])) m)).
Proof.
  split; [apply ResolveGamePath_throws|]. split.
  - apply ResolveGamePath_existing.
  - intros Hst Hex pre d post p Hdirs Hpre Hd.
    rewrite (ResolveGamePath_searching raw m Hst Hex), Hdirs.
    by rewrite (ResolveGamePath_search_first pre d post raw p m Hpre Hd).
Qed.

Lemma ResolveGamePath_not_found raw m :
  status_fails (path_of_string raw) = false →
  fs_exists (path_of_string raw) = false →
  Forall (λ d, FindGameByID d raw max_depth = None)
         (game_install_dirs (globals m)) →
  ResolveGamePath raw m =
  Ok (path_of_string raw)
     (log_scans (scan_of raw <$> game_install_dirs (globals m)) m).
Proof.
  intros Hst Hex Hnone. rewrite (ResolveGamePath_searching raw m Hst Hex).
  by rewrite (ResolveGamePath_search_none _ raw m Hnone).
Qed.

(** The search loop always completes, touching the scan log only; what
    it finds was found in one of the directories. *)
Lemma ResolveGamePath_search_returns raw : ∀ dirs m0,
  ∃ o m', ResolveGamePath_search dirs raw m0 = Ok o m'
          ∧ out m' = out m0 ∧ launched m' = launched m0
          ∧ waited m' = waited m0
          ∧ ∀ p, o = Some p →
              ∃ d, d ∈ dirs ∧ FindGameByID d raw max_depth = Some p.
Proof.
  induction dirs as [|d dirs IH]; intros m0; [by eexists _, _|].
  cbn. run. destruct (FindGameByID d raw max_depth) as [q|] eqn:Hd.
  - eexists _, _. split; [done|]. repeat (split; [done|]).
    intros p [= <-]. exists d. split; [by left|done].
  - destruct (IH (log_scan (d, raw, max_depth) m0))
      as (o & m' & -> & ? & ? & ? & Ho).
    eexists _, _. split; [done|]. repeat (split; [done|]).
    intros p Hp. destruct (Ho p Hp) as (d' & ? & ?). exists d'.
    split; [by right|done].
Qed.

(** [ResolveGamePath] returns whenever the status of the identifier can
    be queried. *)
Lemma ResolveGamePath_returns raw m :
  status_fails (path_of_string raw) = false →
  ∃ p m', ResolveGamePath raw m = Ok p m' ∧ out m' = out m
          ∧ launched m' = launched m ∧ waited m' = waited m
          ∧ (p = path_of_string raw
             ∨ ∃ d, d ∈ game_install_dirs (globals m)
                    ∧ FindGameByID d raw max_depth = Some p).
Proof.
  intros Hst. destruct (fs_exists (path_of_string raw)) eqn:Hex.
  - rewrite (ResolveGamePath_existing raw m Hst Hex).
    eexists _, _. split; [done|]. repeat (split; [done|]). by left.
  - rewrite (ResolveGamePath_searching raw m Hst Hex).
    destruct (ResolveGamePath_search_returns raw
                (game_install_dirs (globals m)) m)
      as (o & m' & -> & ? & ? & ? & Ho).
    destruct o as [p|]; eexists _, _; (split; [done|]);
      repeat (split; [done|]); [right; by apply Ho | by left].
Qed.

(** The warning [main] prints when no install directory is configured. *)
#[local] Abbreviation no_folder_warning :=
  ("Warning: No game folder set. Please set it using:" +:+ Str.nl +:+
   "  shadps4 --add-game-folder <folder_name>" +:+ Str.nl).

#[local] Abbreviation warn_no_folder m :=
  (match game_install_dirs (globals m) with
   | [] => emit Stderr no_folder_warning m
   | _ :: _ => m
   end).

(** What [main] does with the path [ResolveGamePath] returned: line 114
    asks for its status again, with the overload that throws. *)
Lemma main_launch_resolved argv args m p m1 :
  has_game_argument args = true →
  ResolveGamePath (game_path args) (warn_no_folder m) = Ok p m1 →
  main_launch argv args m =
  if status_fails p then Throw p m1
  else if fs_exists p then
    Ok 0%Z
       (log_launch
          {| launch_executable_name := argv_at argv 0;
             launch_wait_for_debugger := wait_for_debugger args;
             launch_eboot := p;
             launch_args := game_args args;
             launch_folder := game_folder args |}
          (match wait_pid args with
           | Some pid => log_wait pid m1
           | None => m1
           end))
  else
    Ok 1%Z (emit Stderr ("Error: Game ID or file path not found: " +:+
                         game_path args +:+ Str.nl) m1).
Proof.
  intros Hg Hr. unfold main_launch. rewrite Hg. cbn [negb].
  unfold gets at 1, bind at 1. unfold bind at 1.
  destruct (game_install_dirs (globals m)) eqn:Hd.
  - unfold print, modify at 1. unfold bind at 1. rewrite Hr.
    unfold exists_throwing, bind at 1.
    destruct (status_fails p); [done|]. unfold ret at 1.
    destruct (fs_exists p); cbn [negb]; run; [|done].
    by destruct (wait_pid args).
  - unfold ret at 1. unfold bind at 1. rewrite Hr.
    unfold exists_throwing, bind at 1.
    destruct (status_fails p); [done|]. unfold ret at 1.
    destruct (fs_exists p); cbn [negb]; run; [|done].
    by destruct (wait_pid args).
Qed.

(** An exception that leaves [ResolveGamePath] leaves [main] as well. *)
Lemma main_launch_unresolved argv args m p m1 :
  has_game_argument args = true →
  ResolveGamePath (game_path args) (warn_no_folder m) = Throw p m1 →
  main_launch argv args m = Throw p m1.
Proof.
  intros Hg Hr. unfold main_launch. rewrite Hg. cbn [negb].
  unfold gets at 1, bind at 1. unfold bind at 1.
  destruct (game_install_dirs (globals m)) eqn:Hd.
  - unfold print, modify at 1. unfold bind at 1. by rewrite Hr.
  - unfold ret at 1. unfold bind at 1. by rewrite Hr.
Qed.

(** C10 on the code.  Let [raw], the game path of the command line, name
    no existing file system entry, and let no configured install
    directory yield a match.  When the status of [raw] can be queried,
    [ResolveGamePath] returns [raw] itself as a path (having scanned every
    install directory), and [main], which tells failure from success only
    by whether the returned path exists, writes the error naming [raw] and
    returns 1, nothing launched.  When the status query fails, the
    exception of line 49 leaves [ResolveGamePath] and [main]: nothing is
    scanned, no error message is written, nothing is launched, and the
    process does not end with code 1. *)
Theorem game_not_found_by_existence (argv : list string) (args : ParsedArgs)
    (m : Machine) :
  has_game_argument args = true →
  fs_exists (path_of_string (game_path args)) = false →
  Forall (λ d, FindGameByID d (game_path args) max_depth = None)
         (game_install_dirs (globals m)) →
  let raw := game_path args in
  let message := "Error: Game ID or file path not found: " +:+ raw +:+ Str.nl in
  let loaded mi :=
    upd_globals (Config_load (path_append user_dir "config.toml")) mi in
  (status_fails (path_of_string raw) = false →
     (∀ m0, game_install_dirs (globals m0) = game_install_dirs (globals m) →
        ResolveGamePath raw m0 =
        Ok (path_of_string raw)
           (log_scans (scan_of raw <$> game_install_dirs (globals m)) m0))
     ∧ (∃ m', main_launch argv args m = Ok 1%Z m'
              ∧ (∃ before, out m' = before ++ [(Stderr, message)])
              ∧ launched m' = launched m)
     ∧ (∀ mi, length argv ≠ 1 → Parse argv (loaded mi) = Some (Ok args m) →
          ∃ m', main argv mi = Some (Ok 1%Z m')
                ∧ (∃ before, out m' = before ++ [(Stderr, message)])
                ∧ launched m' = launched m))
  ∧ (status_fails (path_of_string raw) = true →
       (∀ m0, ResolveGamePath raw m0 = Throw (path_of_string raw) m0)
       ∧ main_launch argv args m
         = Throw (path_of_string raw) (warn_no_folder m)
       ∧ (∀ mi, length argv ≠ 1 → Parse argv (loaded mi) = Some (Ok args m) →
            main argv mi = Some (Throw (path_of_string raw) (warn_no_folder m))))
  ∧ (∀ p m1, ResolveGamePath raw (warn_no_folder m) = Ok p m1 →
       status_fails p = false → fs_exists p = false →
       main_launch argv args m = Ok 1%Z (emit Stderr message m1)).
Proof.
  intros Hg Hex Hnone raw message loaded. subst raw.
  assert (game_install_dirs (globals (warn_no_folder m))
          = game_install_dirs (globals m)) as Hw
    by (by destruct (game_install_dirs (globals m)) eqn:E).
  assert (∀ mi, length argv ≠ 1 →
            Parse argv (loaded mi) = Some (Ok args m) →
            main argv mi = Some (main_launch argv args m)) as Hrun.
  { intros mi Hlen HP. unfold main, InitializeSystem, modify.
    apply Nat.eqb_neq in Hlen. rewrite Hlen. fold (loaded mi). by rewrite HP. }
  split; [|split].
  - intros Hst.
    assert (∀ m0, game_install_dirs (globals m0) = game_install_dirs (globals m) →
       ResolveGamePath (game_path args) m0 =
       Ok (path_of_string (game_path args))
          (log_scans (scan_of (game_path args) <$> game_install_dirs (globals m)) m0)) as Hres.
    { intros m0 Hd. rewrite <- Hd. apply ResolveGamePath_not_found; [done..|].
      by rewrite Hd. }
    assert (∃ m', main_launch argv args m = Ok 1%Z m'
             ∧ (∃ before, out m' = before ++ [(Stderr, message)])
             ∧ launched m' = launched m) as Hmain.
    { eexists. split.
      - rewrite (main_launch_resolved argv args m _ _ Hg (Hres _ Hw)).
        by rewrite Hst, Hex.
      - split; [by eexists|]. by destruct (game_install_dirs (globals m)). }
    split; [exact Hres|]. split; [exact Hmain|].
    intros mi Hlen HP. destruct Hmain as (m' & Hm & Hout & Hl).
    exists m'. split; [|done]. by rewrite (Hrun mi Hlen HP), Hm.
  - intros Hst.
    assert (main_launch argv args m
            = Throw (path_of_string (game_path args)) (warn_no_folder m)) as Hmain.
    { apply main_launch_unresolved; [done|].
      by apply ResolveGamePath_throws. }
    split; [intros m0; by apply ResolveGamePath_throws|].
    split; [exact Hmain|].
    intros mi Hlen HP. by rewrite (Hrun mi Hlen HP), Hmain.
  - intros p m1 Hr Hst Hp.
    rewrite (main_launch_resolved argv args m p m1 Hg Hr). by rewrite Hst, Hp.
Qed.

(** *** The game folder *)

Lemma length_app (a b : string) :
  String.length (a +:+ b) = String.length a + String.length b.
Proof. induction a as [|c a IH]; simpl; [done|congruence]. Qed.










(** *** Effects of the parser outside the game fields *)

(** Case analysis on the condition at the head of a monadic body. *)
Ltac head_case E :=
  lazymatch goal with
  | |- _ ((if ?c then _ else _) _) => destruct c eqn:E
  | |- _ (match ?c with _ => _ end _) => destruct c eqn:E
  end.

Lemma same_world_refl m : same_world m m.
Proof. by repeat split. Qed.

Lemma wrote_stderr_refl m : wrote_stderr m m.
Proof. exists []. by rewrite app_nil_r. Qed.

Lemma wrote_stderr_same m m' : out m' = out m → wrote_stderr m m'.
Proof. intros E. exists []. by rewrite app_nil_r. Qed.

Lemma wrote_stderr_emit m msg m' :
  out m' = out m ++ [(Stderr, msg)] → wrote_stderr m m'.
Proof. intros E. exists [(Stderr, msg)]. split; [done|]. by repeat constructor. Qed.

Lemma wrote_stderr_trans m1 m2 m3 :
  wrote_stderr m1 m2 → wrote_stderr m2 m3 → wrote_stderr m1 m3.
Proof.
  intros (l1 & E1 & F1) (l2 & E2 & F2). exists (l1 ++ l2).
  rewrite E2, E1, app_assoc. split; [done|]. by apply Forall_app.
Qed.

Lemma same_world_trans m1 m2 m3 :
  same_world m1 m2 → same_world m2 m3 → same_world m1 m3.
Proof.
  intros (?&?&?&?&?&?) (?&?&?&?&?&?). repeat split; congruence.
Qed.

(** The callbacks that [Parse] can reach through [arg_map] belong to the
    effect-only flags; they touch neither the persisted configuration nor
    the output. *)
Lemma arg_map_effect_only s cb i m :
  arg_map !! s = Some cb → s ≠ "-h" → s ≠ "--help" →
  Forall (λ f, s ≠ f) value_flags →
  In s effect_only_flags
  ∧ ∃ m', cb i m = Ok i m' ∧ trace m' = trace m ∧ out m' = out m
          ∧ same_world m m'
          ∧ game_folder (result m') = game_folder (result m)
          ∧ wait_pid (result m') = wait_pid (result m)
          ∧ (wait_for_debugger (result m') = wait_for_debugger (result m)
             ∨ s = "--wait-for-debugger").
Proof.
  unfold arg_map, RegisterArguments; cbv zeta.
  rewrite !lookup_insert_Some, lookup_empty.
  intros H Hh Hhelp Hv.
  repeat (apply Forall_cons in Hv as [? Hv]).
  repeat (destruct H as [[<- <-]|[_ H]];
          [first [ congruence
                 | split; [simpl; tauto|];
                   eexists; split; [reflexivity|];
                   repeat split; auto ] |]).
  discriminate.
Qed.

Lemma push_game_args_frame argv n : ∀ j m,
  ∃ m', push_game_args argv j n m = Ok tt m'
    ∧ globals m' = globals m ∧ out m' = out m ∧ trace m' = trace m
    ∧ scans m' = scans m ∧ waited m' = waited m ∧ launched m' = launched m
    ∧ game_folder (result m') = game_folder (result m)
    ∧ wait_pid (result m') = wait_pid (result m)
    ∧ wait_for_debugger (result m') = wait_for_debugger (result m).
Proof.
  induction n as [|n IH]; intros j m.
  - exists m. by repeat split.
  - simpl. run.
    destruct (IH (j + 1) (upd_result (push_game_arg (argv_at argv j)) m))
      as (m' & E & H). exists m'. split; [exact E|]. exact H.
Qed.

(** The two frame conditions on a state computed from [m]. *)
Ltac world := unfold same_world; cbn; by repeat split.
Ltac stderr_only :=
  first [ apply wrote_stderr_same; reflexivity
        | eapply wrote_stderr_emit; reflexivity ].

(** Closing a branch of the loop body that exits with code 1. *)
Ltac effects_exit1 :=
  run; cbn; repeat (split; [reflexivity|]);
  split; [intros b Hb%app_inj_tail; destruct Hb as [_ [= <-]]; discriminate|];
  left; split; [reflexivity|]; split; [reflexivity|]; stderr_only.

(** Closing a branch that goes on without touching the result. *)
Ltac effects_ok :=
  run; cbn;
  split; [world|]; split; [stderr_only|];
  split; [exact (λ H, H)|]; split; [exact (λ H, H)|]; split; [exact (λ H, H)|];
  intros b Hb%app_inj_tail; destruct Hb as [_ [= <-]]; discriminate.

Lemma flag_eqb_false (s a b : string) :
  (s == a) || (s == b) = false → s ≠ a ∧ s ≠ b.
Proof.
  intros [Ha%String.eqb_neq Hb%String.eqb_neq]%orb_false_iff. done.
Qed.

Lemma Parse_positional_effects argv i m :
  body_effects argv i m (Parse_positional (length argv) argv i m).
Proof.
  rewrite Parse_positional_eq.
  destruct (_ && _); effects_ok.
Qed.

Lemma Parse_tail_effects argv i m :
  body_effects argv i m (Parse_tail (length argv) argv i m).
Proof.
  unfold Parse_tail. cbv zeta.
  head_case Hsep; [|apply Parse_positional_effects].
  unfold mark at 1, modify at 1, bind at 1.
  head_case Hlast; [effects_ok|].
  unfold bind at 1.
  destruct (push_game_args_frame argv (length argv - (i + 1)) (i + 1)
              (log_branch i BrSeparator m))
    as (m' & -> & Hg & Ho & Ht & Hs & Hw & Hl & Hf & Hp & Hd).
  run. cbn in *.
  split; [unfold same_world; by rewrite Hg, Hs, Hw, Hl|].
  split; [exists []; by rewrite app_nil_r|].
  unfold folder_from, pid_from, debugger_from. rewrite Hf, Hp, Hd.
  repeat (split; [done|]).
  intros b Hb. rewrite Ht in Hb. apply app_inj_tail in Hb as [_ [= <-]]. discriminate.
Qed.

Lemma Parse_body_effects argv i m :
  1 ≤ i < length argv →
  body_effects argv i m (Parse_body (length argv) argv i m).
Proof.
  intros [H1 Hi]. unfold Parse_body. cbv zeta.
  head_case Hg.
  { head_case Hn; [effects_ok | effects_exit1]. }
  head_case Hp.
  { unfold mark at 1, modify at 1, bind at 1.
    head_case Hn; [effects_ok | effects_exit1]. }
  head_case Hf.
  { unfold mark at 1, modify at 1, bind at 1.
    head_case Hn; [effects_exit1|].
    unfold bind at 1.
    destruct (argv_at argv (i + 1) == "true"); [effects_ok|].
    destruct (argv_at argv (i + 1) == "false"); [effects_ok|].
    effects_exit1. }
  head_case Ha.
  { unfold mark at 1, modify at 1, bind at 1.
    head_case Hn; [effects_exit1|]. apply Nat.leb_gt in Hn.
    unfold ValidatePath.
    destruct (is_directory (path_of_string (argv_at argv (i + 1)))) eqn:Hd;
      [|effects_exit1].
    run; cbn. repeat (split; [reflexivity|]).
    split; [intros b Hb%app_inj_tail; destruct Hb as [_ [= <-]]; discriminate|].
    right. split; [reflexivity|].
    apply String.eqb_eq in Ha.
    unfold folder_command. cbn. repeat (split; [done|]). left. done. }
  head_case Hs.
  { unfold mark at 1, modify at 1, bind at 1.
    head_case Hn; [effects_exit1|]. apply Nat.leb_gt in Hn.
    unfold ValidatePath.
    destruct (is_directory (path_of_string (argv_at argv (i + 1)))) eqn:Hd;
      [|effects_exit1].
    run; cbn. repeat (split; [reflexivity|]).
    split; [intros b Hb%app_inj_tail; destruct Hb as [_ [= <-]]; discriminate|].
    right. split; [reflexivity|].
    apply String.eqb_eq in Hs.
    unfold folder_command. cbn. repeat (split; [done|]). right. done. }
  head_case Ho.
  { unfold mark at 1, modify at 1, bind at 1.
    head_case Hn; [effects_exit1|]. apply Nat.leb_gt in Hn.
    apply String.eqb_eq in Ho.
    unfold bind at 1. rewrite override_root_test.
    destruct (status_fails _) eqn:Hst; cbv beta iota.
    { split; [reflexivity|]. unfold override_root_throws.
      repeat split; try done; lia. }
    head_case Hv; [|effects_exit1].
    apply andb_true_iff in Hv as [He Hd].
    run; cbn.
    split; [world|]. split; [stderr_only|].
    split.
    { intros _ p [= <-]. exists (i + 1).
      replace (i + 1 - 1) with i by lia. repeat split; try done; lia. }
    split; [exact (λ H, H)|]. split; [exact (λ H, H)|].
    intros b Hb%app_inj_tail. destruct Hb as [_ [= <-]]. discriminate. }
  head_case Hw.
  { unfold mark at 1, modify at 1, bind at 1.
    head_case Hn; [effects_exit1|]. apply Nat.leb_gt in Hn.
    apply String.eqb_eq in Hw.
    head_case Hv; [|effects_exit1..].
    run; cbn.
    split; [world|]. split; [stderr_only|].
    split; [exact (λ H, H)|].
    split.
    { intros _ n' [= <-]. exists (i + 1).
      replace (i + 1 - 1) with i by lia. repeat split; try done; lia. }
    split; [exact (λ H, H)|].
    intros b Hb%app_inj_tail. destruct Hb as [_ [= <-]]. discriminate. }
  head_case Hm; [|apply Parse_tail_effects].
  head_case Hh; [|apply Parse_tail_effects].
  apply andb_true_iff in Hh
    as [Hh1%negb_true_iff%String.eqb_neq Hh2%negb_true_iff%String.eqb_neq].
  apply flag_eqb_false in Hg as [? ?], Hp as [? ?], Hf as [? ?].
  apply String.eqb_neq in Ha, Hs, Ho, Hw.
  destruct (arg_map_effect_only _ _ i (log_branch i BrRegistered m) Hm Hh1 Hh2)
    as (Hin & m' & E & Ht & Hout & Hsame & Hfo & Hpi & Hdb).
  { by repeat constructor. }
  unfold mark at 1, modify at 1, bind at 1. unfold bind at 1. rewrite E.
  run. cbn in *.
  split; [exact Hsame|]. split; [exists []; by rewrite app_nil_r|].
  unfold folder_from, pid_from, debugger_from. rewrite Hfo, Hpi.
  split; [done|]. split; [done|].
  split; [|done].
  intros Hold Hnew. destruct Hdb as [Hdb|Hdb]; [rewrite Hdb in Hnew; auto|].
  exists i. done.
Qed.

(** The invariant [effects_so_far] along the loop. *)
Lemma effects_init argv m0 :
  effects_so_far argv m0 (clear_trace (upd_result (λ _, ParsedArgs_default) m0)).
Proof.
  split; [world | by apply wrote_stderr_same | by intros p | by intros n | by intros H].
Qed.

Lemma effects_continue argv i m0 m ctl m' :
  effects_so_far argv m0 m →
  body_effects argv i m (Ok ctl m') →
  effects_so_far argv m0 m'.
Proof.
  intros [Hw Ho Hf Hp Hd] (Hw' & Ho' & Hf' & Hp' & Hd' & _).
  split; [by eapply same_world_trans | by eapply wrote_stderr_trans | auto..].
Qed.

(** How the loop of [Parse] ends, as to its effects. *)
Lemma Parse_loop_effects argv m0 fuel i m o :
  1 ≤ i → effects_so_far argv m0 m →
  Parse_loop fuel (length argv) argv i m = Some o →
  match o with
  | Ok _ m' => effects_so_far argv m0 m'
  | Exit code m' =>
      ∃ k m1, 1 ≤ k < length argv ∧ effects_so_far argv m0 m1
              ∧ body_effects argv k m1 (Exit code m')
  | Throw p m' =>
      ∃ k m1, 1 ≤ k < length argv ∧ effects_so_far argv m0 m1
              ∧ body_effects argv k m1 (Throw p m')
  end.
Proof.
  intros H1 Hinv E.
  eapply (Parse_loop_ind argv (λ i m, 1 ≤ i ∧ effects_so_far argv m0 m)
            (λ o, match o with
                  | Ok _ m' => effects_so_far argv m0 m'
                  | Exit code m' =>
                      ∃ k m1, 1 ≤ k < length argv ∧ effects_so_far argv m0 m1
                              ∧ body_effects argv k m1 (Exit code m')
                  | Throw p m' =>
                      ∃ k m1, 1 ≤ k < length argv ∧ effects_so_far argv m0 m1
                              ∧ body_effects argv k m1 (Throw p m')
                  end)); [..|exact E]; [| |done].
  - by intros j mj [_ Hj] _.
  - intros j mj [Hj1 Hj] Hlt.
    pose proof (Parse_body_effects argv j mj (conj Hj1 Hlt)) as Hb.
    destruct (Parse_body (length argv) argv j mj)
      as [[j'|] m'|code m'|p m'] eqn:Eb.
    + split; [lia|]. by eapply effects_continue.
    + by eapply effects_continue.
    + by exists j, mj.
    + by exists j, mj.
Qed.

Lemma Parse_effects argv m0 o :
  Parse argv m0 = Some o →
  match o with
  | Ok r m => r = result m ∧ effects_so_far argv m0 m
  | Exit code m =>
      (length argv = 1 ∧ code = 1%Z
       ∧ m = emit Stdout usage_text
               (clear_trace (upd_result (λ _, ParsedArgs_default) m0)))
      ∨ (∃ k m1, 1 ≤ k < length argv ∧ effects_so_far argv m0 m1
                 ∧ body_effects argv k m1 (Exit code m))
  | Throw p m =>
      ∃ k m1, 1 ≤ k < length argv ∧ effects_so_far argv m0 m1
              ∧ body_effects argv k m1 (Throw p m)
  end.
Proof.
  unfold Parse. destruct (Nat.eqb_spec (length argv) 1) as [Hlen|Hlen].
  - intros [= <-]. left. done.
  - destruct (Parse_loop _ _ _ _ _) as [o'|] eqn:El; [|done].
    pose proof (Parse_loop_effects argv m0 _ 1 _ o' (le_n 1) (effects_init argv m0) El) as H.
    destruct o' as [[] m|code m|p m]; intros [= <-]; [done|by right|done].
Qed.

Lemma stoi_Value_fits s n : Stoi.stoi s = Stoi.Value n → Stoi.fits_int n = true.
Proof.
  unfold Stoi.stoi, Stoi.fits_int. cbv zeta.
  destruct (match Stoi.skip_space s with
            | EmptyString => _
            | String c r => _
            end) as [neg s2].
  destruct (Stoi.starts_with_digit s2); [|done].
  destruct (_ && _) eqn:E; [|done]. by intros [= <-].
Qed.

(** X1.  When [Parse] returns, the persisted configuration (install
    directories, addon directory, saved files) and the logs of scans, waits
    and launches are what they were, and whatever it printed went to the
    error stream. *)
Theorem Parse_return_leaves_world (argv : list string) (m0 : Machine)
    (r : ParsedArgs) (m : Machine) :
  Parse argv m0 = Some (Ok r m) →
  same_world m0 m ∧ wrote_stderr m0 m.
Proof.
  intros E. apply Parse_effects in E as [_ [Hw Ho _ _ _]]. done.
Qed.

(** X2.  The two ways [Parse] does not return.  When it ends the process
    by [exit], the code is 0 or 1.  Code 0 comes from a successful
    [--add-game-folder] or [--set-addon-folder] alone: the value names a
    directory, it was stored, the configuration was saved to
    [config.toml] in the user directory and the confirmation printed, the
    tokens before it having left the persisted configuration alone.  With
    code 1 the persisted configuration is untouched, and the usage text
    is printed exactly when the command line has no arguments.  No exit
    changes the logs of scans, waits and launches.  When instead an
    exception leaves [Parse], it is the [filesystem_error] of line 240:
    the scan stood at an [--override-root] whose value is a path the
    status of which cannot be queried; up to there the persisted
    configuration and the logs are untouched and output went to the error
    stream only, and no message about the folder was written. *)
Theorem Parse_exit_codes (argv : list string) (m0 : Machine) :
  (∀ code m, Parse argv m0 = Some (Exit code m) →
     scans m = scans m0 ∧ waited m = waited m0 ∧ launched m = launched m0
     ∧ ((code = 1%Z
         ∧ game_install_dirs (globals m) = game_install_dirs (globals m0)
         ∧ addon_install_dir (globals m) = addon_install_dir (globals m0)
         ∧ config_saves (globals m) = config_saves (globals m0)
         ∧ ((length argv = 1 ∧ out m = out m0 ++ [(Stdout, usage_text)])
            ∨ (length argv ≠ 1 ∧ wrote_stderr m0 m)))
        ∨ (code = 0%Z
           ∧ ∃ k m1, 1 ≤ k ∧ same_world m0 m1 ∧ wrote_stderr m0 m1
                     ∧ folder_command argv k m1 m)))
  ∧ (∀ p m, Parse argv m0 = Some (Throw p m) →
       ∃ k m1, 1 ≤ k ∧ override_root_throws argv k p
               ∧ same_world m0 m1 ∧ wrote_stderr m0 m1
               ∧ m = log_branch k BrOverrideRoot m1).
Proof.
  split.
  - intros code m E.
    apply Parse_effects in E as [(Hlen & -> & ->)|(k & m1 & Hk & Hinv & Hb)].
    + repeat (split; [done|]). left. repeat (split; [done|]). by left.
    + destruct Hinv as [(Hd & Ha & Hc & Hs & Hw & Hl) Ho _ _ _].
      destruct Hb as (Hr & Hs' & Hw' & Hl' & _ & Hcode).
      split; [congruence|]. split; [congruence|]. split; [congruence|].
      destruct Hcode as [(-> & Hg & Ho')|(-> & Hcmd)].
      * left. rewrite Hg. repeat (split; [done|]). right.
        split; [lia|]. by eapply wrote_stderr_trans.
      * right. split; [done|]. exists k, m1. split; [lia|].
        split; [by repeat split|]. by split.
  - intros p m E.
    apply Parse_effects in E as (k & m1 & Hk & [Hw Ho _ _ _] & -> & Hthrow).
    exists k, m1. split; [lia|]. done.
Qed.

(** X3.  A game folder in the result of [Parse] is the value of an
    [--override-root] of the command line, and it names an existing
    directory. *)
Theorem game_folder_is_validated (argv : list string) (m0 : Machine)
    (r : ParsedArgs) (m : Machine) (p : path) :
  Parse argv m0 = Some (Ok r m) →
  game_folder r = Some p →
  fs_exists p = true ∧ is_directory p = true
  ∧ ∃ j, 2 ≤ j < length argv
         ∧ argv_at argv (j - 1) = "--override-root"
         ∧ p = path_of_string (argv_at argv j).
Proof.
  intros E Hp. apply Parse_effects in E as [-> [_ _ Hf _ _]].
  destruct (Hf p Hp) as (j & ? & ? & ? & ? & ?). eauto 10.
Qed.

(** X4.  A process ID in the result of [Parse] is what [std::stoi] made
    of the value of a [--wait-for-pid] of the command line; it lies within
    the range of an [int]. *)
Theorem wait_pid_is_converted_value (argv : list string) (m0 : Machine)
    (r : ParsedArgs) (m : Machine) (n : Z) :
  Parse argv m0 = Some (Ok r m) →
  wait_pid r = Some n →
  (Stoi.INT_MIN ≤ n ≤ Stoi.INT_MAX)%Z
  ∧ ∃ j, 2 ≤ j < length argv
         ∧ argv_at argv (j - 1) = "--wait-for-pid"
         ∧ Stoi.stoi (argv_at argv j) = Stoi.Value n.
Proof.
  intros E Hn. apply Parse_effects in E as [-> [_ _ _ Hp _]].
  destruct (Hp n Hn) as (j & Hj & Hflag & Hs). split; [|eauto].
  apply stoi_Value_fits in Hs. unfold Stoi.fits_int in Hs.
  apply andb_true_iff in Hs as [?%Z.leb_le ?%Z.leb_le]. done.
Qed.

(** X5.  [wait_for_debugger] is true in the result of [Parse] only if
    [--wait-for-debugger] is one of the tokens. *)
Theorem wait_for_debugger_needs_flag (argv : list string) (m0 : Machine)
    (r : ParsedArgs) (m : Machine) :
  Parse argv m0 = Some (Ok r m) →
  wait_for_debugger r = true →
  ∃ j, 1 ≤ j < length argv ∧ argv_at argv j = "--wait-for-debugger".
Proof.
  intros E Hd. apply Parse_effects in E as [-> [_ _ _ _ H]]. by apply H.
Qed.

(** *** The course of the scan *)

Lemma pass_init argv m0 :
  pass_so_far argv 1 (clear_trace (upd_result (λ _, ParsedArgs_default) m0)).
Proof.
  split; cbn; [constructor | constructor | lia |].
  intros k H. by apply elem_of_nil in H.
Qed.

(** After the iteration at [i] the invariant holds for every later loop
    head. *)
Lemma pass_step argv i i' b m m' :
  pass_so_far argv i m → 1 ≤ i < length argv → i < i' →
  trace m' = trace m ++ [(i, b)] →
  (b = BrRegistered → In (argv_at argv i) effect_only_flags) →
  pass_so_far argv i' m'.
Proof.
  intros [Hs Hb [Hl1 Hl2] Hr] [H1 Hi] Hi' Etr Hreg.
  split; rewrite Etr.
  - rewrite fmap_app. apply StronglySorted_app. split; [|split; [done|]].
    + intros x1 x2 Hx1 ->%list_elem_of_singleton.
      rewrite Forall_forall in Hb. destruct (Hb x1 Hx1). simpl. lia.
    + repeat constructor.
  - rewrite fmap_app. apply Forall_app. split.
    + eapply Forall_impl; [exact Hb|]. simpl. lia.
    + repeat constructor; simpl; lia.
  - rewrite List.length_app. simpl. lia.
  - intros k. rewrite trace_snoc. intros [H|[-> Hk]]; auto.
Qed.

Lemma pass_weaken argv i m : pass_so_far argv i m → pass_so_far argv (S i) m.
Proof.
  intros [Hs Hb [Hl1 Hl2] Hr]. split; [done| |lia|done].
  eapply Forall_impl; [exact Hb|]. simpl. lia.
Qed.

(** The trace after one iteration, the way both summaries give it. *)
Lemma Parse_body_trace argv i m :
  1 ≤ i < length argv →
  ∃ b, trace (machine_of (Parse_body (length argv) argv i m)) = trace m ++ [(i, b)]
       ∧ (b = BrRegistered → In (argv_at argv i) effect_only_flags).
Proof.
  intros [H1 Hi].
  pose proof (Parse_body_post argv i m Hi) as Hp.
  pose proof (Parse_body_effects argv i m (conj H1 Hi)) as He.
  destruct (Parse_body (length argv) argv i m) as [ctl m'|code m'|p m']; cbn.
  - destruct Hp as (b & Etr & _). exists b. split; [done|].
    destruct He as (_ & _ & _ & _ & _ & Hreg). by apply Hreg.
  - destruct Hp as (b & Etr & _). exists b. split; [done|].
    destruct He as (_ & _ & _ & _ & Hreg & _). intros ->. by destruct (Hreg _ Etr).
  - destruct He as [-> _]. by exists BrOverrideRoot.
Qed.

Lemma Parse_pass argv m0 o :
  Parse argv m0 = Some o →
  ∃ i, pass_so_far argv i (machine_of o).
Proof.
  unfold Parse. destruct (Nat.eqb_spec (length argv) 1) as [Hlen|Hlen].
  - intros [= <-]. exists 1. cbn. split; cbn; [constructor|constructor|lia|].
    intros k H. by apply elem_of_nil in H.
  - destruct (Parse_loop _ _ _ _ _) as [o'|] eqn:El; [|done].
    assert (∃ i, pass_so_far argv i (machine_of o')) as Ho'.
    { eapply (Parse_loop_ind argv (λ i m, 1 ≤ i ∧ pass_so_far argv i m)
                (λ o, ∃ i, pass_so_far argv i (machine_of o))); [..|exact El].
      - intros i m [_ Hp] _. by exists i.
      - intros i m [H1 Hp] Hi.
        destruct (Parse_body_trace argv i m (conj H1 Hi)) as (b & Etr & Hreg).
        destruct (Parse_body (length argv) argv i m)
          as [[i'|] m'|code m'|p m'] eqn:Eb; cbn in Etr.
        + apply Parse_body_continue in Eb as [? ?]; [|done].
          split; [lia|]. eapply (pass_step argv i); eauto with lia.
        + exists (S i). eapply (pass_step argv i); eauto with lia.
        + exists (S i). eapply (pass_step argv i); eauto with lia.
        + exists (S i). eapply (pass_step argv i); eauto with lia.
      - split; [lia|]. apply pass_init. }
    destruct o' as [[] m|code m|p m]; intros [= <-]; exact Ho'.
Qed.

(** X6.  [Parse] ends on every token list, and its scan is one pass from
    left to right: the indices at which the loop body ran increase
    strictly and lie between 1 and [argc - 1], so the body runs at most
    [argc - 1] times and no token is examined twice as a flag. *)
Theorem Parse_single_pass (argv : list string) (m0 : Machine) :
  ∃ o, Parse argv m0 = Some o
       ∧ StronglySorted lt (trace (machine_of o)).*1
       ∧ Forall (λ k, 1 ≤ k < length argv) (trace (machine_of o)).*1
       ∧ length (trace (machine_of o)) ≤ length argv - 1.
Proof.
  destruct (Parse_total argv m0) as [o E]. exists o. split; [done|].
  destruct (Parse_pass argv m0 o E) as (i & [Hs Hb [_ Hl] _]).
  split; [done|]. split; [|done].
  eapply Forall_impl; [exact Hb|]. simpl. lia.
Qed.

(** X7.  Of the nineteen callbacks [RegisterArguments] stores in
    [arg_map], [Parse] calls only those of the seven effect-only
    spellings: whenever an iteration dispatches through [arg_map], the
    token is one of [-i], [--ignore-game-patch], [--log-append],
    [--config-clean], [--config-global], [--wait-for-debugger] and
    [--show-fps]. *)
Theorem only_effect_callbacks_run (argv : list string) (m0 : Machine)
    (o : Res ParsedArgs) (k : nat) :
  Parse argv m0 = Some o →
  (k, BrRegistered) ∈ trace (machine_of o) →
  size arg_map = 19
  ∧ In (argv_at argv k) effect_only_flags
  ∧ is_Some (arg_map !! argv_at argv k).
Proof.
  intros E Hk. destruct (Parse_pass argv m0 o E) as (i & [_ _ _ Hr]).
  split; [reflexivity|]. pose proof (Hr k Hk) as Hin. split; [done|].
  simpl in Hin.
  repeat (destruct Hin as [<-|Hin]; [by eexists|]). done.
Qed.

(** *** Flags one by one *)

(** Evaluating the comparisons of the loop body for a token that is a
    known spelling. *)
Ltac known_flag Hcur :=
  unfold Parse_body; cbv zeta; rewrite Hcur;
  cbn [String.eqb Ascii.eqb Bool.eqb orb andb negb].

(** X8.  A value-taking flag met as the last token is a usage error: the
    message names the flag, the process ends with code 1, and the result
    and the process-wide state are as they were before the flag. *)
Theorem missing_value_is_usage_error (fuel : nat) (argv : list string)
    (i : nat) (m : Machine) (flag : string) :
  In flag value_flags →
  argv_at argv i = flag →
  i + 1 = length argv →
  ∃ b m', Parse_loop (S fuel) (length argv) argv i m = Some (Exit 1 m')
          ∧ m' = emit Stderr ("Error: Missing argument for " +:+ flag +:+ Str.nl)
                   (log_branch i b m)
          ∧ result m' = result m ∧ globals m' = globals m.
Proof.
  intros Hflag Hcur Hlast.
  assert ((i + 1 <? length argv) = false) as Hlt by (apply Nat.ltb_ge; lia).
  assert ((length argv <=? i + 1) = true) as Hle by (apply Nat.leb_le; lia).
  assert (∃ b, Parse_body (length argv) argv i m =
               Exit 1 (emit Stderr ("Error: Missing argument for " +:+ flag +:+ Str.nl)
                         (log_branch i b m))) as [b Hb].
  { simpl in Hflag.
    repeat (destruct Hflag as [<-|Hflag];
            [known_flag Hcur; rewrite ?Hlt, ?Hle; run; by eexists|]).
    done. }
  exists b. eexists. split; [|done].
  apply Parse_loop_exit; [lia|done].
Qed.




(** X12.  [--override-root] asks for the status of its value with the
    overloads of [exists] and [is_directory] that throw (line 240).  When
    the query fails, a [filesystem_error] leaves [Parse] there and then:
    no message is written and no exit code is set.  When it succeeds and
    the value names an existing directory, that is stored as the game
    folder and the scan goes on after the value; when it succeeds and the
    value names anything else or nothing, the message "Folder does not
    exist" goes to the error stream and the process ends with code 1.
    Where [Parse] is left by the exception or by [exit], the game folder
    is what it was. *)
Theorem override_root_needs_directory (fuel : nat) (argv : list string)
    (i : nat) (m : Machine) :
  argv_at argv i = "--override-root" →
  i + 1 < length argv →
  let v := argv_at argv (i + 1) in
  let folder := path_of_string v in
  let m1 := log_branch i BrOverrideRoot m in
  game_folder (result m1) = game_folder (result m)
  ∧ if status_fails folder then
      Parse_loop (S fuel) (length argv) argv i m = Some (Throw folder m1)
    else if fs_exists folder && is_directory folder then
      Parse_loop (S fuel) (length argv) argv i m =
      Parse_loop fuel (length argv) argv (i + 2)
        (upd_result (set_game_folder folder) m1)
    else
      Parse_loop (S fuel) (length argv) argv i m =
      Some (Exit 1 (emit Stderr ("Error: Folder does not exist: " +:+ v +:+
                                 Str.nl) m1)).
Proof.
  intros Hcur Hi v folder m1. split; [done|].
  assert ((length argv <=? i + 1) = false) as Hle by (apply Nat.leb_gt; lia).
  assert (Parse_body (length argv) argv i m =
          if status_fails folder then Throw folder m1
          else if fs_exists folder && is_directory folder
          then Ok (Continue (i + 1)) (upd_result (set_game_folder folder) m1)
          else Exit 1 (emit Stderr ("Error: Folder does not exist: " +:+ v +:+
                                    Str.nl) m1)) as Hb.
  { known_flag Hcur. rewrite Hle. fold v folder.
    unfold mark at 1, modify at 1, bind at 1. unfold bind at 1.
    rewrite override_root_test. fold m1.
    destruct (status_fails folder); [done|].
    by destruct (fs_exists folder && is_directory folder). }
  destruct (status_fails folder).
  - by apply Parse_loop_throw; [lia|].
  - destruct (fs_exists folder && is_directory folder).
    + rewrite (Parse_loop_continue fuel argv i m _ _ ltac:(lia) Hb).
      by replace (i + 1 + 1) with (i + 2) by lia.
    + by apply Parse_loop_exit; [lia|].
Qed.

Lemma arg_map_unregistered s :
  ¬ In s value_flags → ¬ In s effect_only_flags → s ≠ "-h" → s ≠ "--help" →
  arg_map !! s = None.
Proof.
  intros Hv He Hh Hhelp. simpl in Hv, He.
  unfold arg_map, RegisterArguments. cbv zeta.
  rewrite !lookup_insert_ne; [apply lookup_empty|..]; intros <-; tauto.
Qed.

(** X13.  A token with a leading dash that is none of the known spellings
    and not the separator is not fatal: the parser writes the warning for
    an unknown argument to the error stream, changes nothing else, and
    goes on with the next token. *)
Theorem unknown_flag_is_skipped (fuel : nat) (argv : list string)
    (i : nat) (m : Machine) :
  i < length argv →
  Str.first_char (argv_at argv i) = "-"%char →
  ¬ In (argv_at argv i) value_flags →
  ¬ In (argv_at argv i) effect_only_flags →
  argv_at argv i ≠ "--" →
  ∃ m', Parse_loop (S fuel) (length argv) argv i m =
        Parse_loop fuel (length argv) argv (i + 1) m'
        ∧ m' = emit Stderr ("Unknown argument: " +:+ argv_at argv i +:+
                            ", see --help for info." +:+ Str.nl)
                 (log_branch i BrUnknown m)
        ∧ result m' = result m ∧ globals m' = globals m.
Proof.
  intros Hi Hdash Hv He Hsep. eexists. split; [|done].
  apply Parse_loop_continue; [done|].
  destruct (String.eqb_spec (argv_at argv i) "-h") as [Hh|Hh];
    [by apply Parse_body_help; left|].
  destruct (String.eqb_spec (argv_at argv i) "--help") as [Hhelp|Hhelp];
    [by apply Parse_body_help; right|].
  pose proof (arg_map_unregistered _ Hv He Hh Hhelp) as Hnone.
  simpl in Hv.
  unfold Parse_body, Parse_tail. cbv zeta.
  repeat match goal with
         | |- context [argv_at argv i == ?f] =>
             replace (argv_at argv i == f) with false
               by (symmetry; apply String.eqb_neq; intros E;
                   first [done | rewrite E in Hv; tauto])
         end.
  cbn [orb].
  match goal with
  | |- context [match ?l with Some _ => _ | None => _ end] =>
      change l with (arg_map !! argv_at argv i); rewrite Hnone
  end.
  cbv beta iota.
  rewrite Parse_positional_eq, Hdash. cbn [Ascii.eqb Bool.eqb negb andb].
  by rewrite andb_false_r.
Qed.

(** *** [ResolveGamePath] and [main]: every outcome *)

Lemma ResolveGamePath_search_prefix raw dirs : ∀ m,
  ∃ k o, ResolveGamePath_search dirs raw m =
         Ok o (log_scans (scan_of raw <$> take k dirs) m)
         ∧ match o with
           | Some p =>
               ∃ d, 0 < k ∧ dirs !! (k - 1) = Some d
                    ∧ FindGameByID d raw max_depth = Some p
                    ∧ Forall (λ x, FindGameByID x raw max_depth = None)
                             (take (k - 1) dirs)
           | None =>
               k = length dirs
               ∧ Forall (λ x, FindGameByID x raw max_depth = None) dirs
           end.
Proof.
  induction dirs as [|d dirs IH]; intros m.
  - exists 0, None. cbn. rewrite log_scans_nil.
    split; [done|]. split; [done|constructor].
  - cbn. run. destruct (FindGameByID d raw max_depth) as [p|] eqn:Hd.
    + exists 1, (Some p). split; [done|]. exists d.
      split; [lia|]. split; [done|]. split; [done|constructor].
    + destruct (IH (log_scan (d, raw, max_depth) m)) as (k & o & -> & Ho).
      exists (S k), o. split; [by rewrite log_scans_cons|].
      destruct o as [p|].
      * destruct Ho as (d' & Hk & Hl & Hf & Hnone). exists d'.
        split; [lia|]. replace (S k - 1) with (S (k - 1)) by lia.
        split; [done|]. split; [done|]. cbn. by constructor.
      * destruct Ho as [-> Hnone]. split; [done|]. by constructor.
Qed.

(** X14.  [ResolveGamePath] lets the exception of its status query
    (line 49) escape exactly when the status of the identifier cannot be
    queried, having done nothing by then.  Otherwise it returns, and all
    it does to the state is to scan a prefix of the configured install
    directories, in their order and with depth 5: no directory when the
    identifier names an existing entry, otherwise the directories up to
    the first that yields a match, all of them if none does.  Its result
    is the identifier as a path, or what [FindGameByID] found in the last
    directory scanned. *)
Theorem ResolveGamePath_scans_prefix (raw : string) (m : Machine) :
  let dirs := game_install_dirs (globals m) in
  if status_fails (path_of_string raw) then
    ResolveGamePath raw m = Throw (path_of_string raw) m
  else
    ∃ p k, ResolveGamePath raw m =
           Ok p (log_scans ((λ d, (d, raw, 5)) <$> take k dirs) m)
           ∧ k ≤ length dirs
           ∧ (fs_exists (path_of_string raw) = true → k = 0)
           ∧ (p = path_of_string raw
              ∧ (fs_exists (path_of_string raw) = false →
                   k = length dirs
                   ∧ Forall (λ x, FindGameByID x raw 5 = None) dirs)
              ∨ fs_exists (path_of_string raw) = false
                ∧ ∃ d, 0 < k ∧ dirs !! (k - 1) = Some d
                       ∧ FindGameByID d raw 5 = Some p
                       ∧ Forall (λ x, FindGameByID x raw 5 = None)
                                (take (k - 1) dirs)).
Proof.
  intros dirs.
  destruct (status_fails (path_of_string raw)) eqn:Hst;
    [by apply ResolveGamePath_throws|].
  destruct (fs_exists (path_of_string raw)) eqn:Hex.
  - rewrite (ResolveGamePath_existing raw m Hst Hex).
    exists (path_of_string raw), 0. cbn. rewrite log_scans_nil.
    split; [done|]. split; [lia|]. split; [done|]. by left.
  - rewrite (ResolveGamePath_searching raw m Hst Hex). fold dirs.
    destruct (ResolveGamePath_search_prefix raw dirs m) as (k & o & -> & Ho).
    destruct o as [p|].
    + exists p, k. split; [done|].
      destruct Ho as (d & Hk & Hl & Hf & Hnone).
      split; [|split; [done|]].
      * apply lookup_lt_Some in Hl. lia.
      * right. split; [done|]. by exists d.
    + exists (path_of_string raw), k. split; [done|].
      destruct Ho as [-> Hnone]. split; [done|]. split; [done|]. by left.
Qed.

Lemma main_launch_outcome argv args m :
  match main_launch argv args m with
  | Ok code m' =>
      (code = 1%Z ∧ launched m' = launched m ∧ waited m' = waited m)
      ∨ (code = 0%Z ∧ has_game_argument args = true
         ∧ ∃ p, fs_exists p = true
                ∧ launched m' = launched m ++
                    [{| launch_executable_name := argv_at argv 0;
                        launch_wait_for_debugger := wait_for_debugger args;
                        launch_eboot := p;
                        launch_args := game_args args;
                        launch_folder := game_folder args |}]
                ∧ waited m' = waited m ++
                    match wait_pid args with
                    | Some pid => [pid]
                    | None => []
                    end)
  | Exit _ _ => False
  | Throw p m' =>
      has_game_argument args = true ∧ status_fails p = true
      ∧ resolved_from args m p
      ∧ launched m' = launched m ∧ waited m' = waited m
  end.
Proof.
  assert (game_install_dirs (globals (warn_no_folder m))
          = game_install_dirs (globals m)
          ∧ launched (warn_no_folder m) = launched m
          ∧ waited (warn_no_folder m) = waited m) as (Hd0 & Hl0 & Hw0)
    by (by destruct (game_install_dirs (globals m)) eqn:E).
  destruct (has_game_argument args) eqn:Hg.
  - destruct (status_fails (path_of_string (game_path args))) eqn:Hst.
    { rewrite (main_launch_unresolved argv args m _ _ Hg
                 (ResolveGamePath_throws _ _ Hst)).
      split; [done|]. split; [done|]. split; [by left|done]. }
    destruct (ResolveGamePath_returns (game_path args) (warn_no_folder m) Hst)
      as (p & m1 & Hr & _ & Hl & Hw & Hfrom).
    rewrite (main_launch_resolved argv args m p m1 Hg Hr).
    assert (launched m1 = launched m ∧ waited m1 = waited m) as [Hl' Hw']
      by (by rewrite Hl, Hw).
    destruct (status_fails p) eqn:Hsp.
    { split; [done|]. split; [done|]. split; [|done].
      unfold resolved_from. by rewrite <- Hd0. }
    destruct (fs_exists p) eqn:Hp.
    + right. split; [done|]. split; [done|].
      exists p. split; [done|].
      destruct (wait_pid args); cbn; rewrite Hl', Hw'; by rewrite ?app_nil_r.
    + left. by repeat split.
  - unfold main_launch. rewrite Hg. cbn [negb]. run.
    left. by repeat split.
Qed.

(** [main] on the program name alone ends in an exit with code 1. *)
Lemma main_bare_exit (argv : list string) (m : Machine) :
  length argv = 1 →
  ∃ m', main argv m = Some (Exit 1 m')
        ∧ scans m' = scans m ∧ waited m' = waited m ∧ launched m' = launched m.
Proof.
  intros Hlen. unfold main, InitializeSystem, ShowNoArgumentDialog, Parse.
  rewrite Hlen. cbn [Nat.eqb]. run.
  by destruct SDL_ShowSimpleMessageBox; cbn; eexists.
Qed.

(** X15.  Started without arguments, [main] never reaches its
    [return -1]: after the message box (whose failure is reported on the
    error stream) [Parse] prints the usage text and ends the process with
    code 1; nothing is scanned, waited for or launched. *)
Theorem main_without_arguments (argv : list string) (m : Machine) :
  length argv = 1 →
  ∃ m', main argv m = Some (Exit 1 m')
        ∧ out m' = out m ++
            (if SDL_ShowSimpleMessageBox then []
             else [(Stderr, "Could not display SDL message box! Error: " +:+
                            SDL_GetError +:+ Str.nl)])
            ++ [(Stdout, usage_text)]
        ∧ scans m' = scans m ∧ waited m' = waited m ∧ launched m' = launched m.
Proof.
  intros Hlen. unfold main, InitializeSystem, ShowNoArgumentDialog, Parse.
  rewrite Hlen. cbn [Nat.eqb]. run.
  destruct SDL_ShowSimpleMessageBox; cbn; eexists; (split; [reflexivity|]); cbn.
  - done.
  - by rewrite <- app_assoc.
Qed.

(** X16.  [main] ends on every command line, in one of three ways: it
    returns 0 or 1 (never the -1 of its source), it exits with code 0 or
    1, or a [filesystem_error] leaves it and the process is ended without
    an exit code of its own.  It launches at most once, and only as a
    return with code 0: the launched executable exists, the executable
    name is [argv[0]], the game arguments, folder and debugger flag are
    those [Parse] returned, a folder given names a directory, and the
    process ID, if one was parsed, was waited for; every other outcome
    launches and waits for nothing.  The exception comes from a status
    query that fails, on one of three paths: the value of an
    [--override-root] (line 240 of the parser), the game path of the
    command line (line 49), or the path found for it in an install
    directory (line 114). *)
Theorem main_outcomes (argv : list string) (m : Machine) :
  let mi :=
    upd_globals (Config_load (path_append user_dir "config.toml")) m in
  ∃ o, main argv m = Some o
       ∧ match o with
         | Ok code m' =>
             (code = 1%Z ∧ launched m' = launched m ∧ waited m' = waited m)
             ∨ (code = 0%Z
                ∧ ∃ args mp l,
                    Parse argv mi = Some (Ok args mp)
                    ∧ has_game_argument args = true
                    ∧ launched m' = launched m ++ [l]
                    ∧ fs_exists (launch_eboot l) = true
                    ∧ launch_executable_name l = argv_at argv 0
                    ∧ launch_args l = game_args args
                    ∧ launch_folder l = game_folder args
                    ∧ launch_wait_for_debugger l = wait_for_debugger args
                    ∧ (∀ p, launch_folder l = Some p → is_directory p = true)
                    ∧ waited m' = waited m ++
                        match wait_pid args with
                        | Some pid => [pid]
                        | None => []
                        end)
         | Exit code m' =>
             (code = 0%Z ∨ code = 1%Z)
             ∧ launched m' = launched m ∧ waited m' = waited m
             ∧ scans m' = scans m
         | Throw p m' =>
             status_fails p = true
             ∧ launched m' = launched m ∧ waited m' = waited m
             ∧ ((∃ k, 1 ≤ k ∧ override_root_throws argv k p)
                ∨ (∃ args mp, Parse argv mi = Some (Ok args mp)
                              ∧ has_game_argument args = true
                              ∧ resolved_from args mp p))
         end.
Proof.
  intros mi.
  destruct (Nat.eqb_spec (length argv) 1) as [Hlen|Hlen].
  { destruct (main_bare_exit argv m Hlen) as (m' & -> & ? & ? & ?).
    eexists. split; [done|]. cbn. by repeat split; [right|..]. }
  unfold main, InitializeSystem, modify.
  apply Nat.eqb_neq in Hlen. rewrite Hlen. fold mi.
  destruct (Parse_total argv mi) as [o E]. rewrite E.
  pose proof (Parse_effects argv mi o E) as He.
  destruct o as [args mp|code mp|p mp].
  - destruct He as [-> [(_ & _ & _ & _ & Hw & Hl) _ Hf _ _]].
    pose proof (main_launch_outcome argv (result mp) mp) as Ho.
    destruct (main_launch argv (result mp) mp) as [code m'| |p m'];
      [|done|]; (eexists; split; [done|]).
    + destruct Ho as [(-> & Hl' & Hw')|(-> & Hg & p & Hp & Hl' & Hw')].
      * left. split; [done|].
        split; [by rewrite Hl', Hl | by rewrite Hw', Hw].
      * right. split; [done|].
        eexists (result mp), mp, _. split; [done|]. split; [done|].
        split; [by rewrite Hl', Hl|]. repeat (split; [done|]).
        split; [|by rewrite Hw', Hw].
        intros q Hq. by destruct (Hf q Hq) as (_ & _ & _ & _ & _ & ?).
    + destruct Ho as (Hg & Hst & Hfrom & Hl' & Hw').
      split; [done|]. split; [by rewrite Hl', Hl|].
      split; [by rewrite Hw', Hw|]. right. by exists (result mp), mp.
  - eexists. split; [done|]. cbn.
    destruct He as [(Hone & -> & ->)|(k & m1 & Hk & [(_&_&_&Hs&Hw&Hl) _ _ _ _] & Hb)].
    + by repeat split; [right|..].
    + destruct Hb as (_ & Hs' & Hw' & Hl' & _ & Hcode).
      split; [destruct Hcode as [(-> & _)|(-> & _)]; auto|].
      split; [by rewrite Hl', Hl|]. split; [by rewrite Hw', Hw | by rewrite Hs', Hs].
  - eexists. split; [done|].
    destruct He as (k & m1 & Hk & [(_&_&_&Hs&Hw&Hl) _ _ _ _] & -> & Hthrow).
    split; [by destruct Hthrow as (_ & _ & _ & ?)|].
    split; [done|]. split; [done|]. left. exists k. split; [lia|done].
Qed.

End Properties.

(* ------------------------------------------------------------------ *)
(** ** Properties of the game metadata                                *)
(* ------------------------------------------------------------------ *)

Section MetadataProperties.

Context {FS : StdFilesystem} {Sfo : PSF}.

(** *** [LogGameArguments] *)

Lemma LogGameArguments_loop_imap args n : ∀ i,
  i + n ≤ length args →
  LogGameArguments_loop args i n =
  imap (λ k, game_argument_entry (i + k)) (take n (drop i args)).
Proof.
  induction n as [|n IH]; intros i Hi; [done|].
  rewrite (drop_argv_at args i) by lia. cbn.
  replace (i + 0) with i by lia. f_equal.
  rewrite IH by lia. replace (i + 1) with (S i) by lia.
  apply imap_ext. intros k a _. cbn. f_equal. lia.
Qed.

(** X17.  [LogGameArguments] logs the first 32 arguments at most, each
    with its index, in their order, and after them, exactly when there are
    more than 32 arguments, the one error entry; it logs nothing for an
    empty list, and never more than 33 entries. *)
Theorem LogGameArguments_entries (args : list string) :
  LogGameArguments args =
  imap game_argument_entry (take 32 args)
  ++ (if 32 <? length args then [too_many_arguments_entry] else [])
  ∧ length (LogGameArguments args) = Nat.min (length args) 32
      + (if 32 <? length args then 1 else 0)
  ∧ (args = [] → LogGameArguments args = []).
Proof.
  assert (LogGameArguments args =
          imap game_argument_entry (take 32 args)
          ++ (if 32 <? length args then [too_many_arguments_entry] else []))
    as Heq.
  { unfold LogGameArguments, max_logged_args.
    destruct (Nat.eqb_spec (length args) 0) as [H0|H0].
    - apply nil_length_inv in H0 as ->. done.
    - rewrite LogGameArguments_loop_imap by lia. rewrite drop_0. f_equal.
      destruct (Nat.min_spec (length args) 32) as [[Hlt ->]|[Hle ->]]; [|done].
      by rewrite !take_ge by lia. }
  split; [exact Heq|]. split; [|by intros ->].
  rewrite Heq, List.length_app, length_imap, length_take.
  destruct (32 <? length args); cbn [length]; lia.
Qed.

(** *** Hexadecimal conversion *)

Lemma isxdigit_cases c :
  Hex.isxdigit c = true →
  Stoi.isspace c = false ∧ c ≠ "-"%char ∧ c ≠ "+"%char ∧ c ≠ "x"%char
  ∧ c ≠ "X"%char ∧ c ≠ ","%char ∧ c ≠ Ascii.zero
  ∧ (0 ≤ Hex.xdigit_value c < 16)%Z.
Proof.
  unfold Hex.isxdigit, Stoi.isspace, Hex.xdigit_value.
  intros H.
  assert (∀ d : ascii, c ≠ d ↔ nat_of_ascii c ≠ nat_of_ascii d) as Hne.
  { intros d. split; [|by intros ? ->].
    intros Hcd E. apply Hcd. by rewrite <- (ascii_nat_embedding c), E, ascii_nat_embedding. }
  rewrite !Hne. cbn [nat_of_ascii]. 
  change (nat_of_ascii "-") with 45. change (nat_of_ascii "+") with 43.
  change (nat_of_ascii "x") with 120. change (nat_of_ascii "X") with 88.
  change (nat_of_ascii ",") with 44. change (nat_of_ascii Ascii.zero) with 0.
  set (n := nat_of_ascii c) in *.
  repeat match goal with
         | |- context [?a <=? ?b] => destruct (Nat.leb_spec a b)
         | |- context [?a =? ?b] => destruct (Nat.eqb_spec a b)
         | H : context [?a <=? ?b] |- _ => destruct (Nat.leb_spec a b)
         end; cbn in *; try done; repeat split; lia.
Qed.

Lemma xdigit_run_nonneg s : ∀ acc, (0 ≤ acc)%Z → (0 ≤ Hex.xdigit_run acc s)%Z.
Proof.
  induction s as [|c s IH]; intros acc Hacc; simpl; [done|].
  destruct (Hex.isxdigit c) eqn:Hc; [|done].
  apply IH. destruct (isxdigit_cases c Hc) as (_&_&_&_&_&_&_&?). lia.
Qed.

(** The run of digits stops where the digits stop. *)
Lemma xdigit_run_app h rest : ∀ acc,
  Hex.all_xdigits h = true → Hex.starts_with_xdigit rest = false →
  Hex.xdigit_run acc (h +:+ rest) = Hex.xdigit_run acc h.
Proof.
  induction h as [|c h IH]; intros acc Hh Hrest.
  - destruct rest as [|c r]; [done|]. simpl in *. by rewrite Hrest.
  - simpl in *. apply andb_true_iff in Hh as [Hc Hh]. rewrite Hc. by apply IH.
Qed.

Lemma c_str_xdigits h rest :
  Hex.all_xdigits h = true → Cxx.c_str (h +:+ rest) = h +:+ Cxx.c_str rest.
Proof.
  induction h as [|c h IH]; intros Hh; [done|].
  simpl in *. apply andb_true_iff in Hh as [Hc Hh].
  destruct (isxdigit_cases c Hc) as (_&_&_&_&_&_&Hz&_).
  apply Ascii.eqb_neq in Hz. rewrite Hz. by rewrite IH.
Qed.

(** [std::stoi] in base 16 on hexadecimal digits followed by nothing or by
    a character that is neither a digit nor [x]. *)
Lemma hex_stoi_digits h rest :
  h ≠ EmptyString → Hex.all_xdigits h = true →
  Hex.starts_with_xdigit rest = false →
  Str.first_char rest ≠ "x"%char → Str.first_char rest ≠ "X"%char →
  Hex.stoi (h +:+ rest) =
  if (Hex.xdigit_run 0 h <=? Stoi.INT_MAX)%Z
  then Stoi.Value (Hex.xdigit_run 0 h) else Stoi.OutOfRange.
Proof.
  intros Hne Hh Hrest Hx HX.
  destruct h as [|c h]; [done|]. clear Hne.
  pose proof Hh as [Hc Hh']%andb_true_iff.
  destruct (isxdigit_cases c Hc) as (Hsp & Hm & Hp & Hcx & HcX & _ & _ & _).
  change (String c h +:+ rest) with (String c (h +:+ rest)).
  unfold Hex.stoi.
  replace (Stoi.skip_space (String c (h +:+ rest)))
    with (String c (h +:+ rest)) by (simpl; by rewrite Hsp).
  cbv zeta. apply Ascii.eqb_neq in Hm, Hp. rewrite Hm, Hp.
  assert (Hex.skip_0x (String c (h +:+ rest)) = String c (h +:+ rest)) as ->.
  { unfold Hex.skip_0x. destruct (h +:+ rest) as [|c1 r] eqn:E; [done|].
    destruct (Ascii.eqb c "0"); [|done]. cbn [andb].
    assert (Ascii.eqb c1 "x" || Ascii.eqb c1 "X" = false) as ->; [|done].
    destruct h as [|c' h].
    - change (rest = String c1 r) in E.
      subst rest. simpl in Hx, HX. apply orb_false_iff.
      split; by apply Ascii.eqb_neq.
    - change (String c' (h +:+ rest) = String c1 r) in E.
      injection E as <- _. simpl in Hh'. apply andb_true_iff in Hh' as [Hc' _].
      destruct (isxdigit_cases c' Hc') as (_ & _ & _ & ? & ? & _).
      apply orb_false_iff. split; by apply Ascii.eqb_neq. }
  cbn [Hex.starts_with_xdigit]. rewrite Hc.
  change (String c (h +:+ rest)) with (String c h +:+ rest).
  rewrite (xdigit_run_app (String c h) rest 0 Hh Hrest).
  pose proof (xdigit_run_nonneg (String c h) 0 ltac:(done)) as Hpos.
  unfold Stoi.fits_int.
  replace (Stoi.INT_MIN <=? Hex.xdigit_run 0 (String c h))%Z with true; [done|].
  symmetry. apply Z.leb_le. unfold Stoi.INT_MIN. lia.
Qed.

(** *** [LoadPSFData] *)

Lemma index_le needle s : ∀ n m,
  String.index n needle s = Some m → m ≤ String.length s.
Proof.
  induction s as [|c s IH]; intros n m.
  - destruct n, needle; simpl; intros [= <-] || intros [=]; simpl; lia.
  - destruct n; cbn [String.index String.length].
    + destruct (String.prefix needle (String c s)); [intros [= <-]; lia|].
      destruct (String.index 0 needle s) as [k|] eqn:E; [|done].
      intros [= <-]. apply IH in E. lia.
    + destruct (String.index n needle s) as [k|] eqn:E; [|done].
      intros [= <-]. apply IH in E. lia.
Qed.


(** Lines 41-56 in closed form. *)
Lemma sdk_version_of_cases (info : string) (fw : Z) :
  (Z.of_nat (String.length info) < 2 ^ 63)%Z →
  (Cxx.find info "sdk_ver" 0 = None → sdk_version_of info fw = Cxx.Returns fw)
  ∧ (∀ off, Cxx.find info "sdk_ver" 0 = Some off →
       (String.length info < off + 8 →
          sdk_version_of info fw = Cxx.Throws Cxx.out_of_range)
       ∧ (∀ h rest,
            off + 8 ≤ String.length info →
            Cxx.from (off + 8) info = h +:+ rest →
            h ≠ EmptyString → Hex.all_xdigits h = true →
            rest = EmptyString ∨ Str.first_char rest = ","%char →
            sdk_version_of info fw =
            if (Hex.xdigit_run 0 h <=? Stoi.INT_MAX)%Z
            then Cxx.Returns (Hex.xdigit_run 0 h)
            else Cxx.Throws Cxx.out_of_range)).
Proof.
  intros Hsize. unfold sdk_version_of. split; [by intros ->|].
  intros off Hoff. rewrite Hoff. cbv zeta.
  pose proof (index_le _ _ _ _ Hoff) as Hle.
  assert (Cxx.u64 (Z.of_nat off + 8) = Z.of_nat (off + 8)) as ->.
  { unfold Cxx.u64. rewrite Z.mod_small; lia. }
  rewrite Nat2Z.id. split.
  - intros Hshort.
    by destruct (Z.ltb_spec (Z.of_nat (String.length info)) (Z.of_nat (off + 8))); [|lia].
  - intros h rest Hlong Hfrom Hne Hh Hrest.
    destruct (Z.ltb_spec (Z.of_nat (String.length info)) (Z.of_nat (off + 8))); [lia|].
    rewrite Hfrom, (c_str_xdigits h rest Hh).
    assert (Hex.starts_with_xdigit (Cxx.c_str rest) = false
            ∧ Str.first_char (Cxx.c_str rest) ≠ "x"%char
            ∧ Str.first_char (Cxx.c_str rest) ≠ "X"%char) as (H1 & H2 & H3).
    { destruct Hrest as [->|Hc]; [done|].
      destruct rest as [|c r]; [done|]. simpl in Hc. subst c. done. }
    rewrite (hex_stoi_digits h _ Hne Hh H1 H2 H3).
    pose proof (xdigit_run_nonneg h 0 ltac:(done)) as Hpos.
    destruct (Z.leb_spec (Hex.xdigit_run 0 h) Stoi.INT_MAX) as [Hfit|]; [|done].
    unfold Cxx.to_u32. rewrite Z.mod_small; [done|].
    unfold Stoi.INT_MAX in Hfit. lia.
Qed.

(** What a returned record tells about the two steps that can throw. *)
Lemma LoadPSFData_returns (p : path) (d : PSFData) :
  (LoadPSFData p).2 = Cxx.Returns (Some d) →
  let fw := Cxx.to_u32 (default 74448896%Z (psf_GetInteger p "SYSTEM_VER")) in
  fs_exists p = true ∧ psf_Open p = true
  ∧ game_id_of (psf_GetString p "CONTENT_ID") (psf_GetString p "TITLE_ID")
    = Cxx.Returns (psf_id d)
  ∧ sdk_version_of (default "Unknown value" (psf_GetString p "PUBTOOLINFO")) fw
    = Cxx.Returns (psf_sdk_version d)
  ∧ psf_fw_version d = fw.
Proof.
  unfold LoadPSFData.
  destruct (fs_exists p); cbn [negb]; [|done].
  destruct (psf_Open p); cbn [negb]; [|done].
  cbn [snd]. destruct (game_id_of _ _) as [id|]; cbn [Cxx.bind]; [|done].
  destruct (sdk_version_of _ _) as [sdk|]; cbn [Cxx.bind]; [|done].
  destruct (psf_GetInteger p "ATTRIBUTE"); by intros [= <-].
Qed.


(** X19.  The versions [LoadPSFData] returns: the firmware version is
    SYSTEM_VER as an unsigned 32-bit number, 0x4700000 when the entry
    is absent; the SDK version is the
    firmware version when PUBTOOLINFO is absent or does not contain
    [sdk_ver]; when the text eight characters after the first [sdk_ver]
    starts with hexadecimal digits followed by a comma or the end, the SDK
    version is their value, and a value above [INT_MAX] makes the
    function throw instead of returning. *)
Theorem LoadPSFData_versions (p : path) (d : PSFData) :
  let info := default "Unknown value" (psf_GetString p "PUBTOOLINFO") in
  (Z.of_nat (String.length info) < 2 ^ 63)%Z →
  (LoadPSFData p).2 = Cxx.Returns (Some d) →
  psf_fw_version d =
    Cxx.to_u32 (default 74448896%Z (psf_GetInteger p "SYSTEM_VER"))
  ∧ (Cxx.find info "sdk_ver" 0 = None → psf_sdk_version d = psf_fw_version d)
  ∧ (∀ off h rest,
       Cxx.find info "sdk_ver" 0 = Some off →
       off + 8 ≤ String.length info →
       Cxx.from (off + 8) info = h +:+ rest →
       h ≠ EmptyString → Hex.all_xdigits h = true →
       rest = EmptyString ∨ Str.first_char rest = ","%char →
       psf_sdk_version d = Hex.xdigit_run 0 h
       ∧ (Hex.xdigit_run 0 h ≤ Stoi.INT_MAX)%Z).
Proof.
  intros info Hsize (_ & _ & _ & Hsdk & Hfw)%LoadPSFData_returns.
  fold info in Hsdk. rewrite <- Hfw in Hsdk.
  destruct (sdk_version_of_cases info (psf_fw_version d) Hsize) as [Hnone Hsome].
  split; [done|]. split.
  - intros Hf. specialize (Hnone Hf). congruence.
  - intros off h rest Hoff Hlong Hfrom Hne Hh Hrest.
    destruct (Hsome off Hoff) as [_ Hdigits].
    specialize (Hdigits h rest Hlong Hfrom Hne Hh Hrest).
    destruct (Z.leb_spec (Hex.xdigit_run 0 h) Stoi.INT_MAX); [|congruence].
    split; [congruence|done].
Qed.


Lemma game_id_of_throws (content_id title_id : option string) e :
  game_id_of content_id title_id = Cxx.Throws e → e = Cxx.out_of_range.
Proof.
  unfold game_id_of, Cxx.string_from.
  destruct content_id as [c|], title_id as [t|];
    repeat (case_match; try done); congruence.
Qed.

Lemma hex_stoi_no_digits rest :
  rest = EmptyString ∨ Str.first_char rest = ","%char →
  Hex.stoi (Cxx.c_str rest) = Stoi.InvalidArgument.
Proof.
  intros [->|Hc]; [done|].
  destruct rest as [|c r]; simpl in Hc; [done|]. subst c.
  change (Cxx.c_str (String "," r)) with (String "," (Cxx.c_str r)).
  by destruct (Cxx.c_str r).
Qed.

(** X20.  Two ways a PUBTOOLINFO entry makes [LoadPSFData] throw
    [out_of_range], whatever the other entries hold: the first [sdk_ver]
    is the very end of the text (the skipped eight characters pass the
    end), or the hexadecimal digits after it denote a number above
    [INT_MAX]. *)
Theorem LoadPSFData_sdk_ver_out_of_range (p : path) (off : nat) :
  let info := default "Unknown value" (psf_GetString p "PUBTOOLINFO") in
  (Z.of_nat (String.length info) < 2 ^ 63)%Z →
  fs_exists p = true → psf_Open p = true →
  Cxx.find info "sdk_ver" 0 = Some off →
  String.length info < off + 8
  ∨ (∃ h rest,
       off + 8 ≤ String.length info
       ∧ Cxx.from (off + 8) info = h +:+ rest
       ∧ h ≠ EmptyString ∧ Hex.all_xdigits h = true
       ∧ (rest = EmptyString ∨ Str.first_char rest = ","%char)
       ∧ (Stoi.INT_MAX < Hex.xdigit_run 0 h)%Z) →
  (LoadPSFData p).2 = Cxx.Throws Cxx.out_of_range.
Proof.
  intros info Hsize Hex Hop Hoff Hcase. unfold LoadPSFData.
  rewrite Hex, Hop. cbn [negb snd].
  destruct (game_id_of _ _) as [id|e] eqn:Hid; cbn [Cxx.bind];
    [|by rewrite (game_id_of_throws _ _ _ Hid)].
  fold info. set (fw := Cxx.to_u32 _).
  destruct (sdk_version_of_cases info fw Hsize) as [_ Hsome].
  destruct (Hsome off Hoff) as [Hshort Hdigits].
  destruct Hcase as [Hlen|(h & rest & Hlong & Hfrom & Hne & Hh & Hrest & Hbig)].
  - by rewrite (Hshort Hlen).
  - rewrite (Hdigits h rest Hlong Hfrom Hne Hh Hrest).
    by destruct (Z.leb_spec (Hex.xdigit_run 0 h) Stoi.INT_MAX); [lia|].
Qed.

(** X21.  When nothing, or a comma, follows the eight characters skipped
    for the first [sdk_ver] of PUBTOOLINFO, [LoadPSFData] does not return:
    the conversion throws [invalid_argument], unless a short CONTENT_ID
    has thrown [out_of_range] before. *)
Theorem LoadPSFData_sdk_ver_without_digits (p : path) (off : nat) :
  let info := default "Unknown value" (psf_GetString p "PUBTOOLINFO") in
  let content_id := psf_GetString p "CONTENT_ID" in
  (Z.of_nat (String.length info) < 2 ^ 63)%Z →
  fs_exists p = true → psf_Open p = true →
  Cxx.find info "sdk_ver" 0 = Some off →
  off + 8 ≤ String.length info →
  Cxx.from (off + 8) info = EmptyString
  ∨ Str.first_char (Cxx.from (off + 8) info) = ","%char →
  (LoadPSFData p).2 =
  match content_id with
  | Some c =>
      if negb (c == EmptyString) && (String.length c <? 7)
      then Cxx.Throws Cxx.out_of_range
      else Cxx.Throws Cxx.invalid_argument
  | None => Cxx.Throws Cxx.invalid_argument
  end.
Proof.
  intros info content_id Hsize Hex Hop Hoff Hlong Hrest. unfold LoadPSFData.
  rewrite Hex, Hop. cbn [negb snd]. fold info content_id.
  set (fw := Cxx.to_u32 _).
  assert (sdk_version_of info fw = Cxx.Throws Cxx.invalid_argument) as Hsdk.
  { unfold sdk_version_of. rewrite Hoff. cbv zeta.
    pose proof (index_le _ _ _ _ Hoff) as Hle.
    assert (Cxx.u64 (Z.of_nat off + 8) = Z.of_nat (off + 8)) as ->.
    { unfold Cxx.u64. rewrite Z.mod_small; lia. }
    rewrite Nat2Z.id.
    destruct (Z.ltb_spec (Z.of_nat (String.length info)) (Z.of_nat (off + 8)));
      [lia|].
    by rewrite (hex_stoi_no_digits _ Hrest). }
  unfold game_id_of, Cxx.string_from.
  destruct content_id as [c|]; [destruct (c == EmptyString); cbn [negb andb]|].
  - destruct (psf_GetString p "TITLE_ID"); cbn [Cxx.bind]; by rewrite Hsdk.
  - destruct (String.length c <? 7); cbn [Cxx.bind]; [done|by rewrite Hsdk].
  - destruct (psf_GetString p "TITLE_ID"); cbn [Cxx.bind]; by rewrite Hsdk.
Qed.

End MetadataProperties.

(* ------------------------------------------------------------------ *)
(** ** The theorems at work on the concrete file system               *)
(* ------------------------------------------------------------------ *)

Section Runs.

#[local] Existing Instance Demo.fs.
#[local] Existing Instance Demo.host.

Example stoi_42 : Stoi.stoi "42" = Stoi.Value 42.
Proof. reflexivity. Qed.

Example stoi_negative : Stoi.stoi "  -17" = Stoi.Value (-17).
Proof. reflexivity. Qed.

Example stoi_abc : Stoi.stoi "abc" = Stoi.InvalidArgument.
Proof. reflexivity. Qed.

Example stoi_empty : Stoi.stoi EmptyString = Stoi.InvalidArgument.
Proof. reflexivity. Qed.

Example stoi_int_max : Stoi.stoi "2147483647" = Stoi.Value 2147483647.
Proof. reflexivity. Qed.

Example stoi_int_max_succ : Stoi.stoi "2147483648" = Stoi.OutOfRange.
Proof. reflexivity. Qed.

Example stoi_int_min : Stoi.stoi "-2147483648" = Stoi.Value (-2147483648).
Proof. reflexivity. Qed.

Example stoi_int_min_pred : Stoi.stoi "-2147483649" = Stoi.OutOfRange.
Proof. reflexivity. Qed.

Example stoi_leading_space_plus : Stoi.stoi " +7 " = Stoi.Value 7.
Proof. reflexivity. Qed.

Example fullscreen_capital_rejected : ParseFullscreenParam "True" = None.
Proof. reflexivity. Qed.

(** Scenario of the specification: [-g CUSA00001 -f true]. *)
Example scenario_game_fullscreen :
  ∃ r m, Demo.run_Parse ["shadps4"; "-g"; "CUSA00001"; "-f"; "true"]
         = Some (Ok r m)
         ∧ game_path r = "CUSA00001" ∧ has_game_argument r = true
         ∧ game_args r = [] ∧ is_fullscreen (globals m) = true.
Proof. eexists _, _. split; [vm_compute; reflexivity|done]. Qed.

(** A value-taking flag as the last token is a usage error. *)
Example scenario_missing_value :
  ∃ m, Demo.run_Parse ["shadps4"; "--patch"] = Some (Exit 1 m)
       ∧ out m = [(Stderr, "Error: Missing argument for --patch" +:+ Str.nl)].
Proof. eexists. split; [vm_compute; reflexivity|done]. Qed.

(** An empty token list (only the program name): usage text, exit code 1. *)
Example scenario_no_arguments :
  ∃ m, Demo.run_Parse ["shadps4"] = Some (Exit 1 m)
       ∧ out m = [(Stdout, usage_text)].
Proof. eexists. split; [vm_compute; reflexivity|done]. Qed.

(** The game found by its identifier is launched. *)
Example scenario_launch :
  ∃ m, Demo.run_main ["shadps4"; "-g"; "CUSA00001"] = Some (Ok 0%Z m)
       ∧ launch_eboot <$> launched m = ["/games/CUSA00001/eboot.bin"].
Proof. eexists. split; [vm_compute; reflexivity|done]. Qed.

Lemma help_flag_reported_unknown_witness :
  arg_map !! "-h" = Some help_callback
  ∧ ∃ m, Demo.run_Parse ["shadps4"; "-h"] = Some (Ok ParsedArgs_default m)
         ∧ out m = [(Stderr, "Unknown argument: -h, see --help for info."
                             +:+ Str.nl)].
Proof.
  destruct (help_flag_reported_unknown 0
              ["shadps4"; "-h"] 1 Demo.machine0
              ltac:(simpl; lia) (or_introl eq_refl)) as (Hmap & _ & Hrun).
  split; [exact Hmap|].
  eexists. split; [exact (Hrun eq_refl eq_refl Demo.machine0)|reflexivity].
Defined.

(** The scenario of C2 on the code: [game.elf] is reported as unknown and
    no game path is set; nor is a bare token that is not the last one. *)
Lemma bare_token_before_separator_unset :
  (∃ r m, Demo.run_Parse ["shadps4"; "game.elf"; "--"; "--flag"; "value"]
          = Some (Ok r m)
          ∧ game_path r = EmptyString ∧ has_game_argument r = false
          ∧ out m = [(Stderr, "Unknown argument: game.elf, see --help for info."
                              +:+ Str.nl)])
  ∧ (∃ r m, Demo.run_Parse ["shadps4"; "game.elf"; "-i"] = Some (Ok r m)
            ∧ game_path r = EmptyString ∧ has_game_argument r = false).
Proof.
  split; eexists _, _; (split; [vm_compute; reflexivity|done]).
Qed.

Lemma trailing_bare_token_is_game_path_witness :
  ∃ r m, Demo.run_Parse ["shadps4"; "game.elf"] = Some (Ok r m)
         ∧ has_game_argument r = true ∧ game_path r = "game.elf".
Proof.
  apply (proj1 (proj2 (trailing_bare_token_is_game_path 0
                         ["shadps4"; "game.elf"] 1 Demo.machine0
                         ltac:(simpl; lia) eq_refl ltac:(discriminate)
                         eq_refl)) eq_refl Demo.machine0).
Defined.

Lemma game_args_after_separator_witness :
  ∃ r m, Demo.run_Parse ["shadps4"; "-g"; "game.elf"; "--"; "--flag"; "value"]
         = Some (Ok r m)
         ∧ separator_reached
             ["shadps4"; "-g"; "game.elf"; "--"; "--flag"; "value"] m 3
         ∧ game_args r = ["--flag"; "value"].
Proof.
  eexists _, _. split; [vm_compute; reflexivity|].
  match goal with |- ?reached ∧ _ => assert reached as Hsep end.
  { split; [|reflexivity]. exists BrSeparator.
    apply list_elem_of_In. simpl. auto. }
  split; [exact Hsep|].
  refine (proj1 (game_args_after_separator
                   ["shadps4"; "-g"; "game.elf"; "--"; "--flag"; "value"]
                   Demo.machine0 (Ok _ _) _) 3 Hsep).
  vm_compute. reflexivity.
Defined.

Lemma has_game_argument_iff_assigned_witness :
  ∃ r m, Demo.run_Parse ["shadps4"; "-g"; "CUSA00001"] = Some (Ok r m)
         ∧ (has_game_argument r = true ↔ game_path_assigned m)
         ∧ (has_game_argument r = false → game_path r = EmptyString)
         ∧ (has_game_argument r = true →
              ∃ j, 1 ≤ j < 3
                   ∧ game_path r = argv_at ["shadps4"; "-g"; "CUSA00001"] j).
Proof.
  eexists _, _. split; [vm_compute; reflexivity|].
  apply (has_game_argument_iff_assigned
           ["shadps4"; "-g"; "CUSA00001"] Demo.machine0).
  vm_compute. reflexivity.
Defined.

Lemma legacy_branch_unreachable_witness :
  ∃ o, Demo.run_Parse ["shadps4"; "-i"; "game.elf"] = Some o
       ∧ ∀ k b, (k, b) ∈ trace (machine_of o) →
           b ≠ BrLegacy
           ∧ (b = BrPositional →
                k = 3 - 1
                ∧ Str.first_char (argv_at ["shadps4"; "-i"; "game.elf"] k)
                  ≠ "-"%char).
Proof.
  eexists. split; [vm_compute; reflexivity|].
  apply (proj2 (proj2 (legacy_branch_unreachable))
           ["shadps4"; "-i"; "game.elf"] Demo.machine0).
  vm_compute. reflexivity.
Defined.


(** C6 as stated fails both ways: a value that is no base-10 integer sets
    [wait_pid], and a base-10 integer is rejected. *)
Lemma wait_for_pid_not_iff_base10_integer :
  (Stoi.is_base10_integer "12abc" = false
   ∧ ∃ r m, Demo.run_Parse ["shadps4"; "--wait-for-pid"; "12abc"]
            = Some (Ok r m)
            ∧ wait_pid r = Some 12%Z)
  ∧ (Stoi.is_base10_integer "99999999999" = true
     ∧ ∃ m, Demo.run_Parse ["shadps4"; "--wait-for-pid"; "99999999999"]
            = Some (Exit 1 m)
            ∧ wait_pid (result m) = None).
Proof.
  split; (split; [reflexivity|]).
  - eexists _, _. split; [vm_compute; reflexivity|done].
  - eexists. split; [vm_compute; reflexivity|done].
Qed.

Lemma wait_for_pid_follows_stoi_witness :
  (∃ m, Parse_loop 2 3
          ["shadps4"; "--wait-for-pid"; "4711"] 1 Demo.machine0
        = Some (Ok tt m)
        ∧ wait_pid (result m) = Some 4711%Z)
  ∧ (∃ m, Parse_loop 2 3
            ["shadps4"; "--wait-for-pid"; "abc"] 1 Demo.machine0
          = Some (Exit 1 m)
          ∧ wait_pid (result m) = None).
Proof.
  split.
  - eexists. split.
    + etrans; [|reflexivity].
      exact (proj1 (wait_for_pid_follows_stoi 1
                      ["shadps4"; "--wait-for-pid"; "4711"] 1 Demo.machine0
                      eq_refl ltac:(simpl; lia))
               4711%Z eq_refl).
    + reflexivity.
  - destruct (proj1 (proj2 (wait_for_pid_follows_stoi 1
                      ["shadps4"; "--wait-for-pid"; "abc"] 1 Demo.machine0
                      eq_refl ltac:(simpl; lia)))
               ltac:(intros n; discriminate)) as (m & Hrun & _ & Hpid).
    exists m. split; [exact Hrun|exact Hpid].
Defined.

Lemma ResolveGamePath_policy_witness :
  ResolveGamePath (Demo.letters 300) Demo.machine0
  = Throw (Demo.letters 300) Demo.machine0
  ∧ ResolveGamePath "/games/MyGame/eboot.bin" Demo.machine0
    = Ok "/games/MyGame/eboot.bin" Demo.machine0
  ∧ ResolveGamePath "CUSA00001" Demo.machine0
    = Ok "/games/CUSA00001/eboot.bin"
         (log_scans [("/more", "CUSA00001", 5); ("/games", "CUSA00001", 5)]
            Demo.machine0).
Proof.
  split; [|split].
  - apply (proj1 (ResolveGamePath_policy (Demo.letters 300) Demo.machine0)).
    vm_compute. reflexivity.
  - apply (proj1 (proj2 (ResolveGamePath_policy
                           "/games/MyGame/eboot.bin" Demo.machine0)));
      reflexivity.
  - apply (proj2 (proj2 (ResolveGamePath_policy "CUSA00001" Demo.machine0))
             eq_refl eq_refl ["/more"] "/games" ["/"]).
    + reflexivity.
    + repeat constructor.
    + reflexivity.
Defined.


Lemma game_not_found_by_existence_witness :
  (∃ m, Demo.run_main ["shadps4"; "-g"; "NOPE"] = Some (Ok 1%Z m)
        ∧ (∃ before,
             out m = before ++ [(Stderr, "Error: Game ID or file path not found: "
                                         +:+ "NOPE" +:+ Str.nl)])
        ∧ launched m = [])
  ∧ ∃ m, Demo.run_main ["shadps4"; "-g"; Demo.letters 300]
         = Some (Throw (Demo.letters 300) m)
         ∧ out m = [] ∧ scans m = [] ∧ launched m = [].
Proof.
  split.
  - apply (proj2 (proj2 (proj1
             (game_not_found_by_existence ["shadps4"; "-g"; "NOPE"]
                (set_has_game_argument true (set_game_path "NOPE" ParsedArgs_default))
                (upd_result (set_has_game_argument true)
                   (upd_result (set_game_path "NOPE")
                      (log_branch 1 BrGame Demo.machine0)))
                eq_refl eq_refl ltac:(repeat constructor)) eq_refl))
             Demo.machine0).
    + simpl; lia.
    + vm_compute. reflexivity.
  - eexists. split.
    { apply (proj2 (proj2 (proj1 (proj2
               (game_not_found_by_existence ["shadps4"; "-g"; Demo.letters 300]
                  (set_has_game_argument true
                     (set_game_path (Demo.letters 300) ParsedArgs_default))
                  (upd_result (set_has_game_argument true)
                     (upd_result (set_game_path (Demo.letters 300))
                        (log_branch 1 BrGame Demo.machine0)))
                  eq_refl ltac:(vm_compute; reflexivity)
                  ltac:(repeat (constructor; [vm_compute; reflexivity|]);
                        constructor)))
               ltac:(vm_compute; reflexivity)))
               Demo.machine0).
      - simpl; lia.
      - vm_compute. reflexivity. }
    vm_compute. by repeat split.
Defined.

End Runs.

(* ------------------------------------------------------------------ *)
(** ** Runs of the parser, of [main] and of the metadata loader        *)
(* ------------------------------------------------------------------ *)

Section MoreRuns.

#[local] Existing Instance Demo.fs.
#[local] Existing Instance Demo.host.

Lemma Parse_return_leaves_world_witness :
  ∃ r m, Demo.run_Parse ["shadps4"; "--bogus"; "-i"; "x.elf"] = Some (Ok r m)
         ∧ same_world Demo.machine0 m ∧ wrote_stderr Demo.machine0 m.
Proof.
  eexists _, _. split; [vm_compute; reflexivity|].
  refine (Parse_return_leaves_world ["shadps4"; "--bogus"; "-i"; "x.elf"]
            Demo.machine0 _ _ _).
  vm_compute. reflexivity.
Defined.

Lemma Parse_exit_codes_witness :
  (∃ m, Demo.run_Parse ["shadps4"; "--add-game-folder"; "/games"]
        = Some (Exit 0 m)
        ∧ scans m = [] ∧ waited m = [] ∧ launched m = [])
  ∧ ∃ m, Demo.run_Parse ["shadps4"; "-i"; "--override-root"; Demo.letters 300]
         = Some (Throw (Demo.letters 300) m)
         ∧ ∃ k m1,
             1 ≤ k
             ∧ override_root_throws
                 ["shadps4"; "-i"; "--override-root"; Demo.letters 300] k
                 (Demo.letters 300)
             ∧ same_world Demo.machine0 m1 ∧ wrote_stderr Demo.machine0 m1
             ∧ m = log_branch k BrOverrideRoot m1.
Proof.
  split.
  - eexists. split; [vm_compute; reflexivity|].
    pose proof (proj1 (Parse_exit_codes
                         ["shadps4"; "--add-game-folder"; "/games"]
                         Demo.machine0) 0%Z _ ltac:(vm_compute; reflexivity))
      as (Hs & Hw & Hl & _).
    exact (conj Hs (conj Hw Hl)).
  - eexists. split; [vm_compute; reflexivity|].
    apply (proj2 (Parse_exit_codes
                    ["shadps4"; "-i"; "--override-root"; Demo.letters 300]
                    Demo.machine0)).
    vm_compute. reflexivity.
Defined.

Lemma game_folder_is_validated_witness :
  @fs_exists Demo.fs "/games" = true
  ∧ @is_directory Demo.fs "/games" = true
  ∧ ∃ j, 2 ≤ j < 4
         ∧ argv_at ["shadps4"; "--override-root"; "/games"; "x.elf"] (j - 1)
           = "--override-root"
         ∧ "/games" = argv_at ["shadps4"; "--override-root"; "/games"; "x.elf"] j.
Proof.
  refine (game_folder_is_validated
            ["shadps4"; "--override-root"; "/games"; "x.elf"]
            Demo.machine0 _ _ "/games" _ _).
  - vm_compute. reflexivity.
  - reflexivity.
Defined.

Lemma wait_pid_is_converted_value_witness :
  (Stoi.INT_MIN ≤ 4711 ≤ Stoi.INT_MAX)%Z
  ∧ ∃ j, 2 ≤ j < 4
         ∧ argv_at ["shadps4"; "--wait-for-pid"; "4711"; "x.elf"] (j - 1)
           = "--wait-for-pid"
         ∧ Stoi.stoi (argv_at ["shadps4"; "--wait-for-pid"; "4711"; "x.elf"] j)
           = Stoi.Value 4711.
Proof.
  refine (wait_pid_is_converted_value
            ["shadps4"; "--wait-for-pid"; "4711"; "x.elf"]
            Demo.machine0 _ _ 4711%Z _ _).
  - vm_compute. reflexivity.
  - reflexivity.
Defined.

Lemma wait_for_debugger_needs_flag_witness :
  ∃ j, 1 ≤ j < 3
       ∧ argv_at ["shadps4"; "--wait-for-debugger"; "x.elf"] j
         = "--wait-for-debugger".
Proof.
  refine (wait_for_debugger_needs_flag
            ["shadps4"; "--wait-for-debugger"; "x.elf"] Demo.machine0 _ _ _ _).
  - vm_compute. reflexivity.
  - reflexivity.
Defined.

Lemma only_effect_callbacks_run_witness :
  size arg_map = 19
  ∧ In (argv_at ["shadps4"; "--show-fps"; "x.elf"] 1) effect_only_flags
  ∧ is_Some (arg_map !! argv_at ["shadps4"; "--show-fps"; "x.elf"] 1).
Proof.
  refine (only_effect_callbacks_run ["shadps4"; "--show-fps"; "x.elf"]
            Demo.machine0 _ 1 _ _).
  - vm_compute. reflexivity.
  - apply list_elem_of_In. simpl. auto.
Defined.

Lemma missing_value_is_usage_error_witness :
  ∃ b m', Parse_loop 1 2 ["shadps4"; "--patch"] 1 Demo.machine0
          = Some (Exit 1 m')
          ∧ m' = emit Stderr ("Error: Missing argument for " +:+ "--patch"
                              +:+ Str.nl)
                   (log_branch 1 b Demo.machine0)
          ∧ result m' = result Demo.machine0
          ∧ globals m' = globals Demo.machine0.
Proof.
  refine (missing_value_is_usage_error 0 ["shadps4"; "--patch"] 1
            Demo.machine0 "--patch" _ eq_refl eq_refl).
  simpl. tauto.
Defined.



Lemma override_root_needs_directory_witness :
  Parse_loop 2 4 ["shadps4"; "--override-root"; "/games"; "x.elf"] 1
    Demo.machine0
  = Parse_loop 1 4 ["shadps4"; "--override-root"; "/games"; "x.elf"] 3
      (upd_result (set_game_folder "/games")
         (log_branch 1 BrOverrideRoot Demo.machine0))
  ∧ Parse_loop 1 3 ["shadps4"; "--override-root"; "/games/MyGame/eboot.bin"] 1
      Demo.machine0
    = Some (Exit 1
              (emit Stderr ("Error: Folder does not exist: "
                            +:+ "/games/MyGame/eboot.bin" +:+ Str.nl)
                 (log_branch 1 BrOverrideRoot Demo.machine0)))
  ∧ Parse_loop 1 3 ["shadps4"; "--override-root"; Demo.letters 300] 1
      Demo.machine0
    = Some (Throw (Demo.letters 300)
              (log_branch 1 BrOverrideRoot Demo.machine0)).
Proof.
  split; [|split].
  - refine (proj2 (override_root_needs_directory 1
                     ["shadps4"; "--override-root"; "/games"; "x.elf"] 1
                     Demo.machine0 eq_refl _)).
    simpl. lia.
  - refine (proj2 (override_root_needs_directory 0
                     ["shadps4"; "--override-root"; "/games/MyGame/eboot.bin"]
                     1 Demo.machine0 eq_refl _)).
    simpl. lia.
  - refine (proj2 (override_root_needs_directory 0
                     ["shadps4"; "--override-root"; Demo.letters 300]
                     1 Demo.machine0 eq_refl _)).
    simpl. lia.
Defined.

Lemma unknown_flag_is_skipped_witness :
  ∃ m', Parse_loop 2 3 ["shadps4"; "--bogus"; "x.elf"] 1 Demo.machine0
        = Parse_loop 1 3 ["shadps4"; "--bogus"; "x.elf"] 2 m'
        ∧ m' = emit Stderr ("Unknown argument: " +:+ "--bogus" +:+
                            ", see --help for info." +:+ Str.nl)
                 (log_branch 1 BrUnknown Demo.machine0)
        ∧ result m' = result Demo.machine0
        ∧ globals m' = globals Demo.machine0.
Proof.
  refine (unknown_flag_is_skipped 1 ["shadps4"; "--bogus"; "x.elf"] 1
            Demo.machine0 _ eq_refl _ _ _).
  - simpl. lia.
  - simpl. intuition discriminate.
  - simpl. intuition discriminate.
  - discriminate.
Defined.

Lemma main_without_arguments_witness :
  ∃ m', Demo.run_main ["shadps4"] = Some (Exit 1 m')
        ∧ out m' = [(Stdout, usage_text)]
        ∧ scans m' = [] ∧ waited m' = [] ∧ launched m' = [].
Proof.
  exact (main_without_arguments ["shadps4"] Demo.machine0 eq_refl).
Defined.

End MoreRuns.

Section MetadataRuns.

#[local] Existing Instance DemoSfo.fs.
#[local] Existing Instance DemoSfo.sfo.

Example LoadPSFData_missing_file :
  LoadPSFData "/games/Solo-patch/none.sfo" = ([], Cxx.Returns None).
Proof. reflexivity. Qed.

Example LoadPSFData_short_content_id :
  (LoadPSFData "/param.sfo").2 = Cxx.Throws Cxx.out_of_range.
Proof. reflexivity. Qed.

Lemma LoadPSFData_versions_witness :
  ∃ d, (LoadPSFData "/games/CUSA00001/param.sfo").2 = Cxx.Returns (Some d)
       ∧ psf_id d = "CUSA00001"
       ∧ psf_fw_version d = 72351744%Z
       ∧ psf_sdk_version d = 72384769%Z.
Proof.
  eexists. split; [vm_compute; reflexivity|]. split; [reflexivity|].
  pose proof (LoadPSFData_versions "/games/CUSA00001/param.sfo" _
                ltac:(vm_compute; reflexivity) ltac:(vm_compute; reflexivity))
    as (Hfw & _ & Hsdk).
  split; [exact Hfw|].
  refine (proj1 (Hsdk 16 "04508101" ",st_type=digital50"
                   eq_refl _ eq_refl _ eq_refl (or_intror eq_refl))).
  - simpl. lia.
  - discriminate.
Defined.

Lemma LoadPSFData_sdk_ver_out_of_range_witness :
  (LoadPSFData "/games/Solo-patch/param.sfo").2 = Cxx.Throws Cxx.out_of_range.
Proof.
  refine (LoadPSFData_sdk_ver_out_of_range "/games/Solo-patch/param.sfo" 16
            _ eq_refl eq_refl eq_refl _).
  - vm_compute. reflexivity.
  - right. exists "FFFFFFFF", ",st_type=digital50".
    split; [simpl; lia|]. split; [reflexivity|]. split; [discriminate|].
    split; [reflexivity|]. split; [by right|]. vm_compute. reflexivity.
Defined.

Lemma LoadPSFData_sdk_ver_without_digits_witness :
  (LoadPSFData "/more/param.sfo").2 = Cxx.Throws Cxx.invalid_argument.
Proof.
  refine (LoadPSFData_sdk_ver_without_digits "/more/param.sfo" 0
            _ eq_refl eq_refl eq_refl _ (or_introl eq_refl)).
  - vm_compute. reflexivity.
  - simpl. lia.
Defined.

End MetadataRuns.
